(** * nlxplain.evaluation.explanation_evaluation

    A shallow embedding of [ExplanationEvalutator] (constructor,
    [get_true_rational_tokens], [evaluate_explainers] and
    [_rank_explainers]) together with the properties of the evaluation
    and ranking driver.

    Python objects that are mutated in place (pandas frames) live in a
    store of frames addressed by locations; calls to the collaborators
    (metrics, tokenizer) are recorded in a call log; exceptions are
    results of the computation. *)

From Stdlib Require Import QArith Qcanon.
From stdpp Require Import base numbers list strings pretty gmap.

#[local] Set Warnings "-clear-no-such-hyp".
Local Open Scope Z_scope.

(** ** Dense ranking ([scipy.stats.rankdata(..., method="dense")]) *)

Module Rank.

(** The distinct values of [qs] that are strictly below [x]. *)
Definition below (qs : list Qc) (x : Qc) : list Qc :=
  remove_dups (filter (λ y, (y < x)%Qc) qs).

(** Modelled from the spec: [scipy.stats.rankdata] is a library routine
    and is not part of the sources.  With [method="dense"] equal values
    receive the same rank and the ranks are the smallest consecutive
    positive integers consistent with the ascending order: the rank of a
    value is one more than the number of distinct values strictly below
    it. *)
Definition dense_rank (qs : list Qc) (x : Qc) : Z :=
  Z.of_nat (S (length (below qs x))).

Definition rankdata (qs : list Qc) : list Z := dense_rank qs <$> qs.

(** Number of distinct values in a column. *)
Definition distinct (qs : list Qc) : Z := Z.of_nat (length (remove_dups qs)).

(** Python's builtin [max] over a sequence: [ValueError] (here [None]) on
    the empty sequence. *)
Definition py_max (l : list Z) : option Z :=
  match l with
  | [] => None
  | x :: l' => Some (foldl Z.max x l')
  end.

(** The rank column of a "higher is better" metric (lines 265-266):
    [min(len(col), max(r)) + 1 - r]. *)
Definition invert_ranks (n : Z) (r : list Z) : option (list Z) :=
  m ← py_max r; Some ((λ x, Z.min n m + 1 - x) <$> r).

(** The rank column of a metric column, by sort direction: the ascending
    dense ranks when lower is better (line 277), the inverted ones when
    higher is better (lines 265-266). *)
Definition rank_column (ascending : bool) (n : Z) (qs : list Qc)
    : option (list Z) :=
  if ascending then Some (rankdata qs) else invert_ranks n (rankdata qs).

End Rank.

(** ** Python values *)

(** A cell of a frame: a float (finite floats are modelled by rationals),
    an integer (rank columns) or a missing value. *)
Inductive cell :=
  | Float (q : Qc)
  | Int (z : Z)
  | NaN.

Global Instance cell_eq_dec : EqDecision cell.
Proof. solve_decision. Defined.

Definition cell_value (c : cell) : option Qc :=
  match c with
  | Float q => Some q
  | Int z => Some (Qc_of_Z z)
  | NaN => None
  end.

(** [numpy] arrays handed to the metrics: [.values] of a row selection is
    one-dimensional when the label selects one row and two-dimensional
    otherwise. *)
Inductive ndarray :=
  | Vec (v : list cell)
  | Mat (rows : list (list cell)).

(** A pandas frame, column-major: the row labels and the named columns in
    display order.  Column names may repeat. *)
Record DataFrame := {
  index : list string;
  columns : list (string * list cell)
}.

Definition column_names (df : DataFrame) : list string := (columns df).*1.

(** Every column has one cell per row label. *)
Definition wf_frame (df : DataFrame) : Prop :=
  Forall (λ c, length c.2 = length (index df)) (columns df).

Global Instance wf_frame_dec df : Decision (wf_frame df).
Proof. unfold wf_frame. apply _. Defined.

Definition Rationale := list Z.
Definition kwargs := list (string * Z).

(** The metric capability as the driver uses it.  [is_BaseEvaluator] is
    the outcome of [isinstance(m, BaseEvaluator)];
    [BEST_SORTING_ASCENDING] is [Some b] when the attribute compares equal
    to the boolean [b] and [None] otherwise.  [evaluate_explanation] takes
    the text, the score vector, the rationale (plausibility calls) and the
    [target] keyword (faithfulness and other calls) and the forwarded
    keyword arguments. *)
Record Metric := {
  SHORT_NAME : string;
  TYPE_METRIC : string;
  BEST_SORTING_ASCENDING : option bool;
  is_BaseEvaluator : bool;
  evaluate_explanation :
    string → ndarray → option Rationale → option Z → kwargs → Qc
}.

(** The tokenizer: [encode] maps a word to its token ids, special tokens
    included. *)
Record Tokenizer := { encode : string → list Z }.

(** The wrapped classifier; opaque to the driver. *)
Inductive Model := ModelW (name : string).

(** ** Exceptions, call log, store *)

Inductive exn :=
  | ValueError
  | KeyError
  | InvalidIndexError (* pandas: re-indexing a frame with repeated labels *)
  | DanglingLoc       (* model only: a location outside the store *)
  | NonTermination.   (* model only: a loop ran out of fuel *)

Inductive result (A : Type) :=
  | Ok (a : A)
  | Raise (e : exn).
Arguments Ok {A} a.
Arguments Raise {A} e.

Inductive event :=
  | EvEvaluate (m : Metric) (text : string) (scores : ndarray)
      (rationale : option Rationale) (target : option Z) (args : kwargs)
  | EvEncode (word : string).

(** Locations are positions in the store. *)
Abbreviation loc := nat (only parsing).

Record state := {
  heap : list DataFrame;
  calls : list event
}.

Definition M (A : Type) : Type := state → result A * state.

Global Instance M_ret : MRet M := λ A a s, (Ok a, s).
Global Instance M_bind : MBind M := λ A B f m s,
  match m s with
  | (Ok a, s') => f a s'
  | (Raise e, s') => (Raise e, s')
  end.

Definition raise {A} (e : exn) : M A := λ s, (Raise e, s).

Definition log (e : event) : M unit := λ s,
  (Ok (), {| heap := heap s; calls := calls s ++ [e] |}).

Definition alloc (df : DataFrame) : M loc := λ s,
  (Ok (length (heap s)), {| heap := heap s ++ [df]; calls := calls s |}).

Definition read (l : loc) : M DataFrame := λ s,
  match heap s !! l with
  | Some df => (Ok df, s)
  | None => (Raise DanglingLoc, s)
  end.

Definition write (l : loc) (df : DataFrame) : M unit := λ s,
  match heap s !! l with
  | Some _ => (Ok (), {| heap := <[l:=df]> (heap s); calls := calls s |})
  | None => (Raise DanglingLoc, s)
  end.

Definition lift {A} (o : option A) (e : exn) : M A :=
  match o with
  | Some a => mret a
  | None => raise e
  end.

(** [for x in l: body x] *)
Fixpoint for_ {A} (l : list A) (body : A → M unit) : M unit :=
  match l with
  | [] => mret ()
  | x :: l' => body x;; for_ l' body
  end.

(** A loop that threads a local variable through its iterations. *)
Fixpoint for_acc {A S} (l : list A) (body : S → A → M S) (acc : S) : M S :=
  match l with
  | [] => mret acc
  | x :: l' => acc' ← body acc x; for_acc l' body acc'
  end.

(** ** The evaluator object and its constructor *)

(** The metric classes imported from [faithfulness_measures] and
    [plausibility_measures]; they are not part of this module and are
    taken as parameters of the constructor. *)
Record MetricLibrary := {
  AOPC_Comprehensiveness_Evaluation : Model → Tokenizer → Metric;
  AOPC_Sufficiency_Evaluation : Model → Tokenizer → Metric;
  TauLOO_Evaluation : Model → Tokenizer → bool → Metric;
  AUPRC_PlausibilityEvaluation : Model → Tokenizer → Metric;
  Tokenf1_PlausibilityEvaluation : Model → Tokenizer → Metric;
  TokenIOU_PlausibilityEvaluation : Model → Tokenizer → Metric
}.

Record ExplanationEvalutator := {
  modelw : Model;
  tokenizer : Tokenizer;
  faithfulness_metrics : list Metric;
  plausibility_metrics : list Metric;
  other_measures : list Metric
}.

(** [kwargs.get(key, True)] *)
Fixpoint kwargs_get (kw : list (string * bool)) (key : string) : bool :=
  match kw with
  | [] => true
  | (k, v) :: kw' => if decide (k = key) then v else kwargs_get kw' key
  end.

(** Lines 81-89: the loop over the supplied metrics. *)
Fixpoint register_metrics (evaluation_metrics : list Metric)
    (self : ExplanationEvalutator) : result ExplanationEvalutator :=
  match evaluation_metrics with
  | [] => Ok self
  | evaluation_metric :: rest =>
      if is_BaseEvaluator evaluation_metric then Raise ValueError
      else if decide (TYPE_METRIC evaluation_metric = "faithfulness") then
        register_metrics rest
          {| modelw := modelw self; tokenizer := tokenizer self;
             faithfulness_metrics := faithfulness_metrics self ++ [evaluation_metric];
             plausibility_metrics := plausibility_metrics self;
             other_measures := other_measures self |}
      else if decide (TYPE_METRIC evaluation_metric = "plausibility") then
        register_metrics rest
          {| modelw := modelw self; tokenizer := tokenizer self;
             faithfulness_metrics := faithfulness_metrics self;
             plausibility_metrics := plausibility_metrics self ++ [evaluation_metric];
             other_measures := other_measures self |}
      else
        register_metrics rest
          {| modelw := modelw self; tokenizer := tokenizer self;
             faithfulness_metrics := faithfulness_metrics self;
             plausibility_metrics := plausibility_metrics self;
             other_measures := other_measures self ++ [evaluation_metric] |}
  end.

Definition __init__ (lib : MetricLibrary) (model : string) (tok : Tokenizer)
    (evaluation_metrics : option (list Metric)) (kw : list (string * bool))
    : result ExplanationEvalutator :=
  let mw := ModelW model in
  match evaluation_metrics with
  | None =>
      let compr_eval := AOPC_Comprehensiveness_Evaluation lib mw tok in
      let suff_eval := AOPC_Sufficiency_Evaluation lib mw tok in
      let use_correlation := kwargs_get kw "use_correlation" in
      let tau_eval := TauLOO_Evaluation lib mw tok use_correlation in
      let use_plausibility_metrics := kwargs_get kw "use_plausibility_metrics" in
      Ok {| modelw := mw; tokenizer := tok;
            faithfulness_metrics := [compr_eval; suff_eval; tau_eval];
            plausibility_metrics :=
              if use_plausibility_metrics then
                [AUPRC_PlausibilityEvaluation lib mw tok;
                 Tokenf1_PlausibilityEvaluation lib mw tok;
                 TokenIOU_PlausibilityEvaluation lib mw tok]
              else [];
            other_measures := [] |}
  | Some ms =>
      register_metrics ms
        {| modelw := mw; tokenizer := tok; faithfulness_metrics := [];
           plausibility_metrics := []; other_measures := [] |}
  end.

(** ** The word-to-token rationale aligner *)

(** Python's [l[1:-1]]. *)
Definition slice_1_m1 {A} (l : list A) : list A :=
  drop 1 (take (length l - 1) l).

(** [self.tokenizer.encode(t)]: a call to the tokenizer collaborator. *)
Definition tokenizer_encode (self : ExplanationEvalutator) (t : string)
    : M (list Z) :=
  log (EvEncode t);; mret (encode (tokenizer self) t).

Definition get_true_rational_tokens (self : ExplanationEvalutator)
    (original_tokens : list string) (rationale_original_tokens : list Z)
    : M (list Z) :=
  for_acc (zip original_tokens rationale_original_tokens)
    (λ token_rationale p,
       ids ← tokenizer_encode self p.1;
       let converted_token := slice_1_m1 ids in
       for_acc converted_token
         (λ token_rationale _, mret (token_rationale ++ [p.2]))
         token_rationale)
    [].

(** Number of sub-word tokens of a word. *)
Definition token_count (self : ExplanationEvalutator) (w : string) : nat :=
  length (slice_1_m1 (encode (tokenizer self) w)).

(** ** The pandas operations the driver uses

    pandas is a library outside the sources.  Each operation below is
    modelled on frames with named columns from what the driver does with
    it (spec 4.3, steps 1, 3 and 7, and 4.4) and from the behaviour pandas
    documents for it: selection by a name returns every column of that
    name, assignment to a name replaces those columns or appends one,
    and concatenation aligns on the row labels. *)

Module Pandas.

(** [Index.duplicated()]: marks every occurrence of a name after its
    first. *)
Fixpoint duplicated_from (seen names : list string) : list bool :=
  match names with
  | [] => []
  | n :: names' => bool_decide (n ∈ seen) :: duplicated_from (n :: seen) names'
  end.

Definition duplicated (names : list string) : list bool :=
  duplicated_from [] names.

(** [sum(mask.astype(int))] *)
Definition count_true (mask : list bool) : nat :=
  length (filter (λ b, b = true) mask).

(** [counts[col]] on a [defaultdict(int)]. *)
Definition count_of (counts : gmap string nat) (col : string) : nat :=
  default 0%nat (counts !! col).

(** The inner [while cur_count > 0] loop of [_maybe_dedup_names]: append
    [.<count>] until the name is one that has not been handed out. *)
Fixpoint mangle (fuel : nat) (counts : gmap string nat) (col : string)
    : option (string * gmap string nat) :=
  match count_of counts col with
  | O => Some (col, counts)
  | S c =>
      match fuel with
      | O => None
      | S fuel' =>
          mangle fuel' (<[col := S (S c)]> counts) (col +:+ "." +:+ pretty (S c))
      end
  end.

Fixpoint dedup_from (counts : gmap string nat) (names : list string)
    : option (list string) :=
  match names with
  | [] => Some []
  | col :: names' =>
      r ← mangle (S (size counts)) counts col;
      rest ← dedup_from (<[r.1 := 1%nat]> r.2) names';
      Some (r.1 :: rest)
  end.

(** Modelled from the spec: [ParserBase._maybe_dedup_names] belongs to
    pandas and is not part of the sources.  It walks the names in order
    with a table of counts and appends a positional suffix [.k] to every
    name that was already handed out, repeating until the result is new.
    [None] stands for the inner loop not terminating within its fuel. *)
Definition _maybe_dedup_names (names : list string) : option (list string) :=
  dedup_from ∅ names.

(** Row [i] of a frame. *)
Definition row (df : DataFrame) (i : nat) : list cell :=
  omap (λ c, c.2 !! i) (columns df).

(** Positions of a label in the row index. *)
Definition positions (idx : list string) (label : string) : list nat :=
  filter (λ i, idx !! i = Some label) (seq 0 (length idx)).

(** [df.loc[label].values] *)
Definition loc_values (df : DataFrame) (label : string) : option ndarray :=
  match positions (index df) label with
  | [] => None
  | [i] => Some (Vec (row df i))
  | ps => Some (Mat (row df <$> ps))
  end.

(** Insertion-ordered dictionaries with string keys. *)
Fixpoint dict_get {V} (d : list (string * V)) (k : string) : option V :=
  match d with
  | [] => None
  | (k', v) :: d' => if decide (k' = k) then Some v else dict_get d' k
  end.

Fixpoint dict_set {V} (d : list (string * V)) (k : string) (v : V)
    : list (string * V) :=
  match d with
  | [] => [(k, v)]
  | (k', v') :: d' =>
      if decide (k' = k) then (k, v) :: d' else (k', v') :: dict_set d' k v
  end.

(** Union of label lists, in order of first appearance. *)
Definition union_labels (a b : list string) : list string :=
  foldl (λ acc k, if decide (k ∈ acc) then acc else acc ++ [k]) a b.

Definition score_table := list (string * list (string * Qc)).

(** [pd.DataFrame(evaluation_scores)]: one column per key, one row per
    inner key; a missing inner key is a missing cell. *)
Definition frame_of_scores (scores : score_table) : DataFrame :=
  let idx := foldl (λ acc kv, union_labels acc (kv.2).*1) [] scores in
  {| index := idx;
     columns :=
       (λ kv, (kv.1, (λ label, from_option Float NaN (dict_get kv.2 label)) <$> idx))
         <$> scores |}.

(** Re-indexing a frame on new row labels; pandas refuses when the frame's
    own labels repeat. *)
Definition reindex (df : DataFrame) (idx : list string) : option DataFrame :=
  if decide (index df = idx) then Some df
  else if decide (NoDup (index df)) then
    Some {| index := idx;
            columns :=
              (λ c, (c.1, (λ label,
                 default NaN (i ← head (positions (index df) label); c.2 !! i))
                 <$> idx)) <$> columns df |}
  else None.

(** [pd.concat([a, b], axis=1)]: frames with equal row labels are put
    side by side; otherwise both are re-indexed on the distinct labels of
    the two, in order of first appearance, which pandas refuses
    ([InvalidIndexError]) for a frame whose own labels repeat. *)
Definition concat (a b : DataFrame) : option DataFrame :=
  if decide (index a = index b) then
    Some {| index := index a; columns := columns a ++ columns b |}
  else
    let idx := union_labels [] (index a ++ index b) in
    a' ← reindex a idx;
    b' ← reindex b idx;
    Some {| index := idx; columns := columns a' ++ columns b' |}.

(** [df[c]]: the values of every column called [c]. *)
Definition getitem (df : DataFrame) (c : string) : list (list cell) :=
  (filter (λ col, col.1 = c) (columns df)).*2.

(** [np.ravel] of the selection, row by row. *)
Definition ravel (n : nat) (cols : list (list cell)) : list cell :=
  i ← seq 0 n; omap (λ col, col !! i) cols.

(** [df[name] = values]: replaces the values of every column of that name,
    or appends a new column. *)
Definition setitem (df : DataFrame) (name : string) (values : list cell)
    : option DataFrame :=
  if decide (length values = length (index df)) then
    Some {| index := index df;
            columns :=
              if decide (name ∈ column_names df) then
                (λ col, if decide (col.1 = name) then (name, values) else col)
                  <$> columns df
              else columns df ++ [(name, values)] |}
  else None.

(** [df[names]]: a new frame with the selected columns, in the order of
    [names]. *)
Definition getitem_list (df : DataFrame) (names : list string)
    : option DataFrame :=
  if decide (Forall (λ n, n ∈ column_names df) names) then
    Some {| index := index df;
            columns := n ← names; filter (λ col, col.1 = n) (columns df) |}
  else None.

End Pandas.

(** ** The driver *)

Import Pandas.

(** [copy.deepcopy(df)]: a new object with the same contents. *)
Definition deepcopy (l : loc) : M loc := df ← read l; alloc df.

(** [df.columns = names] *)
Definition set_columns (l : loc) (names : list string) : M unit :=
  df ← read l;
  if decide (length names = length (columns df)) then
    write l {| index := index df; columns := zip names (columns df).*2 |}
  else raise ValueError.

(** [m.evaluate_explanation(...)]: a call to a metric collaborator. *)
Definition call_metric (m : Metric) (text : string) (scores : ndarray)
    (rationale : option Rationale) (target : option Z) (args : kwargs) : M Qc :=
  log (EvEvaluate m text scores rationale target args);;
  mret (evaluate_explanation m text scores rationale target args).

(** One of the three metric loops of [evaluate_explainers]:
    [[
      for measure in metrics:
          if measure.SHORT_NAME not in evaluation_scores:
              evaluation_scores[measure.SHORT_NAME] = {}
          evaluation_scores[measure.SHORT_NAME][explainer_type] =
              measure.evaluate_explanation(...)
    ]] *)
Definition evaluate_metrics (metrics : list Metric) (text : string)
    (scores : ndarray) (rationale : option Rationale) (target : option Z)
    (args : kwargs) (explainer_type : string) (evaluation_scores : score_table)
    : M score_table :=
  for_acc metrics
    (λ evaluation_scores measure,
       let evaluation_scores :=
         if decide (SHORT_NAME measure ∈ evaluation_scores.*1)
         then evaluation_scores
         else dict_set evaluation_scores (SHORT_NAME measure) [] in
       v ← call_metric measure text scores rationale target args;
       inner ← lift (dict_get evaluation_scores (SHORT_NAME measure)) KeyError;
       mret (dict_set evaluation_scores (SHORT_NAME measure)
               (dict_set inner explainer_type v)))
    evaluation_scores.

Definition evaluation_measures (self : ExplanationEvalutator) : list Metric :=
  faithfulness_metrics self ++ plausibility_metrics self ++ other_measures self.

(** [df[c]] flattened row by row, as [rankdata] and [len] receive it. *)
Definition column_cells (df : DataFrame) (c : string) : list cell :=
  ravel (length (index df)) (getitem df c).

(** Modelled from the spec: [stats.rankdata(col, method="dense")] belongs
    to scipy and is not part of the sources.  On a column without missing
    values it is the dense ranking of spec 4.4 ([Rank.rankdata]).  The spec
    does not say what it does with a missing value; scipy documents that
    by default ([nan_policy="propagate"]) a missing value anywhere in the
    input makes every rank of the output missing.  A rank is an integer or
    missing ([None]). *)
Definition rankdata_dense (cells : list cell) : list (option Z) :=
  match mapM cell_value cells with
  | Some qs => Some <$> Rank.rankdata qs
  | None => replicate (length cells) None
  end.

(** [a > b] on ranks: false when either is missing. *)
Definition rank_gt (a b : option Z) : bool :=
  match a, b with
  | Some x, Some y => bool_decide (y < x)
  | _, _ => false
  end.

(** Python's builtin [max(r)]: [ValueError] (here [None]) on the empty
    sequence; the running maximum is replaced only by an element that
    compares greater. *)
Definition max_rank (r : list (option Z)) : option (option Z) :=
  match r with
  | [] => None
  | x :: r' => Some (foldl (λ m y, if rank_gt y m then y else m) x r')
  end.

(** Python's builtin [min(n, m)]: [m] only when it compares smaller. *)
Definition min_rank (n : Z) (m : option Z) : Z :=
  match m with
  | Some y => if bool_decide (y < n) then y else n
  | None => n
  end.

(** Line 266: [min(len(df_eval[c]), max(r)) + 1 - r]; arithmetic on a
    missing rank gives a missing rank. *)
Definition invert_dense (n : Z) (r : list (option Z))
    : option (list (option Z)) :=
  match max_rank r with
  | Some m =>
      Some ((λ x : option Z, (λ z, min_rank n m + 1 - z) <$> x) <$> r)
  | None => None
  end.

(** A rank as a cell of the frame. *)
Definition rank_cell (r : option Z) : cell := from_option Int NaN r.

(** Lines 257-262 and 269-274: the short names of the metrics with the
    given direction that have a column. *)
Definition show_cols_of (direction : bool) (self : ExplanationEvalutator)
    (cols : list string) : list string :=
  SHORT_NAME <$>
    filter (λ m, BEST_SORTING_ASCENDING m = Some direction ∧ SHORT_NAME m ∈ cols)
      (evaluation_measures self).

Definition _rank_explainers (self : ExplanationEvalutator) (df_eval : loc)
    (score_cols : list string) : M loc :=
  d ← read df_eval;
  let cols := column_names d in
  (* Higher is better *)
  let show_higher_cols := show_cols_of false self cols in
  for_ show_higher_cols
    (λ c,
       d ← read df_eval;
       let r := rankdata_dense (column_cells d c) in
       v ← lift (invert_dense (Z.of_nat (length (index d))) r) ValueError;
       d' ← lift (setitem d (c +:+ "_r") (rank_cell <$> v)) ValueError;
       write df_eval d');;
  (* Lower is better *)
  d ← read df_eval;
  let show_lower_cols := show_cols_of true self (column_names d) in
  for_ show_lower_cols
    (λ c,
       d ← read df_eval;
       let r := rankdata_dense (column_cells d c) in
       d' ← lift (setitem d (c +:+ "_r") (rank_cell <$> r)) ValueError;
       write df_eval d');;
  let show_cols :=
    metric_show ← SHORT_NAME <$> evaluation_measures self;
    if decide (metric_show ∈ show_higher_cols ++ show_lower_cols)
    then [metric_show; metric_show +:+ "_r"] else [] in
  let output_cols :=
    score_cols ++ show_cols
      ++ filter (λ c, c ∉ score_cols ++ show_cols) cols in
  d ← read df_eval;
  out ← lift (getitem_list d output_cols) KeyError;
  alloc out.

(** The styled view of a frame (lines 190-244): colour maps over the
    score and rank columns.  It keeps a reference to the frame, reads it
    and does not change it; the colours themselves are not modelled. *)
Inductive Styler := StylerOf (data : loc).

Definition _style_result (self : ExplanationEvalutator) (df_eval : loc)
    : M Styler :=
  _ ← read df_eval; mret (StylerOf df_eval).

(** Lines 129-175: the body of the loop over the explainers. *)
Definition evaluate_row (self : ExplanationEvalutator) (text : string)
    (explanations : loc) (true_rationale : option Rationale) (target : Z)
    (evaluation_args : kwargs) (evaluation_scores : score_table)
    (explainer_type : string) : M score_table :=
  expl ← read explanations;
  soft_score_explanation ← lift (loc_values expl explainer_type) KeyError;
  evaluation_scores ←
    evaluate_metrics (faithfulness_metrics self) text soft_score_explanation
      None (Some target) evaluation_args explainer_type evaluation_scores;
  evaluation_scores ←
    match true_rationale with
    | Some rationale =>
        if decide (0 < length (plausibility_metrics self))%nat then
          evaluate_metrics (plausibility_metrics self) text
            soft_score_explanation (Some rationale) None evaluation_args
            explainer_type evaluation_scores
        else mret evaluation_scores
    | None => mret evaluation_scores
    end;
  evaluate_metrics (other_measures self) text soft_score_explanation
    None (Some target) evaluation_args explainer_type evaluation_scores.

(** Lines 129-175: the loop over the explainers, starting from the empty
    score table. *)
Definition evaluate_rows (self : ExplanationEvalutator) (text : string)
    (explanations : loc) (true_rationale : option Rationale) (target : Z)
    (evaluation_args : kwargs) : M score_table :=
  expl ← read explanations;
  for_acc (index expl)
    (evaluate_row self text explanations true_rationale target evaluation_args)
    [].

(** Lines 119-127: the private copy of the matrix, with repeated column
    names rewritten, and the token names read off it. *)
Definition working_copy (explanations : loc) : M (loc * list string) :=
  df_eval ← deepcopy explanations;
  (* Rename duplicate columns (tokens) by adding a suffix *)
  expl ← read explanations;
  (if decide (0 < count_true (duplicated (column_names expl)))%nat then
     names ← lift (_maybe_dedup_names (column_names expl)) NonTermination;
     set_columns df_eval names
   else mret ());;
  d ← read df_eval;
  let text_tokens := column_names d in
  mret (df_eval, text_tokens).

Definition evaluate_explainers (self : ExplanationEvalutator) (text : string)
    (explanations : loc) (true_rationale : option Rationale)
    (rank_explainer style_df : bool) (target : Z) (evaluation_args : kwargs)
    : M (loc * option Styler) :=
  wc ← working_copy explanations;
  let df_eval := wc.1 in
  let text_tokens := wc.2 in
  evaluation_scores ←
    evaluate_rows self text explanations true_rationale target evaluation_args;
  d ← read df_eval;
  merged ← lift (concat d (frame_of_scores evaluation_scores)) InvalidIndexError;
  df_eval ← alloc merged;
  df_eval ←
    (if rank_explainer then _rank_explainers self df_eval text_tokens
     else mret df_eval);
  df_style ←
    (if style_df then s ← _style_result self df_eval; mret (Some s)
     else mret None);
  mret (df_eval, df_style).

(** ** The styling operations (lines 21-30 and 193-243)

    A pandas [Styler] keeps the operations applied to it in a list and
    runs them when the table is rendered.  [df_st] is that list as
    [_style_result] builds it for a frame; the colour maps are recorded by
    the seaborn call that makes them. *)

(** [np.isnan(val)] *)
Definition isnan (val : cell) : bool :=
  match val with
  | NaN => true
  | _ => false
  end.

(** Color the nan text black *)
Definition color_nan_black (val : cell) : option string :=
  if isnan val then Some "color: black" else None.

(** Color the nan cell background white *)
Definition color_nan_white_background (val : cell) : option string :=
  if isnan val then Some "background-color: white" else None.

(** seaborn colour maps ([as_cmap=True]), by the call that makes them. *)
Inductive cmap :=
  | diverging_palette (h_neg h_pos : Z) (s l n : option Z)
  | light_palette (color : string) (reverse : bool).

(** An operation queued on a [Styler]. *)
Inductive style_op :=
  | background_gradient (axis : Z) (cm : cmap) (vmin vmax : Z)
      (subset : option (list string))
  | applymap (f : cell → option string).

(** The operations queued on [df_st], in order. *)
Definition df_st (self : ExplanationEvalutator) (df_eval : DataFrame)
    : list style_op :=
  let palette := diverging_palette 240 10 None None None in
  let df_st := [background_gradient 1 palette (-1) 1 None] in
  (* Higher is better *)
  let show_higher_cols := show_cols_of false self (column_names df_eval) in
  let df_st :=
    if decide (show_higher_cols ≠ []) then
      let palette := diverging_palette 150 275 (Some 80) (Some 55) (Some 9) in
      df_st ++ [background_gradient 1 palette (-1) 1 (Some show_higher_cols)]
    else df_st in
  (* Lower is better *)
  let show_lower_cols := show_cols_of true self (column_names df_eval) in
  let df_st :=
    if decide (show_lower_cols ≠ []) then
      let palette := light_palette "blue" true in
      df_st ++ [background_gradient 1 palette (-1) 1 (Some show_lower_cols)]
    else df_st in
  let subset_columns_ranking :=
    filter (λ v_r, v_r ∈ column_names df_eval)
      ((λ v, v +:+ "_r") <$> show_higher_cols ++ show_lower_cols) in
  let df_st :=
    if decide (subset_columns_ranking ≠ []) then
      df_st ++ [background_gradient 1 (light_palette "lightblue" true) 1
                  (Z.of_nat (length (index df_eval)))
                  (Some subset_columns_ranking)]
    else df_st in
  df_st ++ [applymap color_nan_black; applymap color_nan_white_background].

(** * Definitions used to state the properties *)

(** A concrete metric written the way the type annotation
    [List[BaseEvaluator]] asks for: a subclass of [BaseEvaluator] that
    implements [evaluate_explanation]. *)
Definition concrete_faithfulness_metric : Metric :=
  {| SHORT_NAME := "aopc_compr";
     TYPE_METRIC := "faithfulness";
     BEST_SORTING_ASCENDING := Some false;
     is_BaseEvaluator := true;
     evaluate_explanation := λ _ _ _ _ _, Q2Qc 0 |}.

(** The alignment the specification describes: each word's flag repeated
    once per sub-word token, in word order. *)
Definition expected_alignment (self : ExplanationEvalutator)
    (words : list string) (rationale : list Z) : list Z :=
  mjoin (zip_with (λ w r, replicate (token_count self w) r) words rationale).

(** [r] is [n] followed by a positional suffix [.k] (and possibly further
    suffixes). *)
Definition suffixed (n r : string) : Prop :=
  ∃ (k : nat) (rest : string), r = n +:+ "." +:+ pretty k +:+ rest.

(** [preserves n m Q]: running [m] in a store with at least [n] objects
    leaves the first [n] objects as they are, whether [m] returns or
    raises, and a returned value satisfies [Q]. *)
Definition preserves (n : nat) {A} (m : M A) (Q : A → Prop) : Prop :=
  ∀ s, (n ≤ length (heap s))%nat →
    take n (heap (m s).2) = take n (heap s)
    ∧ (n ≤ length (heap (m s).2))%nat
    ∧ ∀ a, (m s).1 = Ok a → Q a.

(** [quiet m]: running [m] calls no collaborator. *)
Definition quiet {A} (m : M A) : Prop := ∀ s, calls (m s).2 = calls s.

(** The token names of the working copy (line 127). *)
Definition text_tokens_of (names : list string) : list string :=
  if decide (0 < count_true (duplicated names))%nat
  then default names (_maybe_dedup_names names)
  else names.

(** The working copy of a matrix: same rows and cells, columns renamed. *)
Definition renamed (df : DataFrame) : DataFrame :=
  {| index := index df;
     columns := zip (text_tokens_of (column_names df)) (columns df).*2 |}.

(** The score table after recording one score. *)
Definition store_score (es : score_table) (name label : string) (v : Qc)
    : score_table :=
  let es' := if decide (name ∈ es.*1) then es else dict_set es name [] in
  dict_set es' name (dict_set (default [] (dict_get es' name)) label v).

Definition record_scores (ms : list Metric) (text : string) (v : ndarray)
    (r : option Rationale) (t : option Z) (args : kwargs) (label : string)
    (es : score_table) : score_table :=
  foldl (λ es m, store_score es (SHORT_NAME m) label
                   (evaluate_explanation m text v r t args)) es ms.

(** The plausibility metrics that are evaluated, given the rationale
    argument. *)
Definition plausibility_used (self : ExplanationEvalutator)
    (r : option Rationale) : list Metric :=
  match r with
  | Some _ => plausibility_metrics self
  | None => []
  end.

(** The score table after one explainer row, and the calls made for it. *)
Definition row_scores (self : ExplanationEvalutator) (text : string)
    (df : DataFrame) (r : option Rationale) (target : Z) (args : kwargs)
    (es : score_table) (label : string) : score_table :=
  let v := default (Vec []) (loc_values df label) in
  record_scores (other_measures self) text v None (Some target) args label
    (record_scores (plausibility_used self r) text v r None args label
       (record_scores (faithfulness_metrics self) text v None (Some target)
          args label es)).

Definition row_calls (self : ExplanationEvalutator) (text : string)
    (df : DataFrame) (r : option Rationale) (target : Z) (args : kwargs)
    (label : string) : list event :=
  let v := default (Vec []) (loc_values df label) in
  ((λ m, EvEvaluate m text v None (Some target) args)
     <$> faithfulness_metrics self)
  ++ ((λ m, EvEvaluate m text v r None args) <$> plausibility_used self r)
  ++ ((λ m, EvEvaluate m text v None (Some target) args)
        <$> other_measures self).

(** The metrics that are evaluated for a row. *)
Definition metrics_used (self : ExplanationEvalutator) (r : option Rationale)
    : list Metric :=
  faithfulness_metrics self ++ plausibility_used self r ++ other_measures self.

(** The ranks either loop of [_rank_explainers] computes for a column:
    the dense ranks when lower is better, the inverted ones when higher is
    better. *)
Definition rank_values (ascending : bool) (n : Z) (cells : list cell)
    : option (list (option Z)) :=
  if ascending then Some (rankdata_dense cells)
  else invert_dense n (rankdata_dense cells).

(** The rank column computed for column [c] of frame [d]. *)
Definition ranks_of (ascending : bool) (d : DataFrame) (c : string) : list cell :=
  rank_cell <$> default []
    (rank_values ascending (Z.of_nat (length (index d))) (column_cells d c)).

(** [d] with a rank column appended for each column in [cs]. *)
Definition add_ranks (ascending : bool) (d : DataFrame) (cs : list string)
    : DataFrame :=
  {| index := index d;
     columns := columns d ++ ((λ c, (c +:+ "_r", ranks_of ascending d c)) <$> cs) |}.

(** The body of either loop of [_rank_explainers]. *)
Definition rank_body (ascending : bool) (l : loc) (c : string) : M unit :=
  d ← read l;
  v ← lift (rank_values ascending (Z.of_nat (length (index d)))
              (column_cells d c)) ValueError;
  d' ← lift (setitem d (c +:+ "_r") (rank_cell <$> v)) ValueError;
  write l d'.

(** What the ranker needs of the frame it is given: one cell per row in
    every column; column names, metric short names and rank-column
    names that do not collide; no metric column in a frame without
    rows; and the token columns present. *)
Record rankable (self : ExplanationEvalutator) (d : DataFrame)
    (score_cols : list string) : Prop := {
  rk_wf : wf_frame d;
  rk_cols : NoDup (column_names d);
  rk_names : NoDup (SHORT_NAME <$> evaluation_measures self);
  rk_fresh : ∀ m, m ∈ evaluation_measures self →
    SHORT_NAME m +:+ "_r"
      ∉ column_names d ++ (SHORT_NAME <$> evaluation_measures self);
  rk_rows : index d = [] →
    ∀ m, m ∈ evaluation_measures self → SHORT_NAME m ∉ column_names d;
  rk_score_cols : score_cols ⊆ column_names d
}.

(** The frame after both ranking loops. *)
Definition ranked_frame (self : ExplanationEvalutator) (d : DataFrame)
    : DataFrame :=
  add_ranks true
    (add_ranks false d (show_cols_of false self (column_names d)))
    (show_cols_of true self (column_names d)).

(** Lines 281-286. *)
Definition show_cols (self : ExplanationEvalutator) (d : DataFrame)
    : list string :=
  metric_show ← SHORT_NAME <$> evaluation_measures self;
  if decide (metric_show ∈ show_cols_of false self (column_names d)
                           ++ show_cols_of true self (column_names d))
  then [metric_show; metric_show +:+ "_r"] else [].

(** Lines 288-292. *)
Definition output_cols (self : ExplanationEvalutator) (d : DataFrame)
    (score_cols : list string)
    : list string :=
  score_cols ++ show_cols self d
    ++ filter (λ c, c ∉ score_cols ++ show_cols self d) (column_names d).

(** The row labels recorded under key [k]. *)
Definition inner_keys (es : score_table) (k : string) : list string :=
  default [] ((λ inner, inner.*1) <$> dict_get es k).

(** The short names that get a score column: those of the metrics that are
    evaluated, if the matrix has a row at all. *)
Definition scored_names (self : ExplanationEvalutator) (df : DataFrame)
    (r : option Rationale) : list string :=
  match index df with
  | [] => []
  | _ => SHORT_NAME <$> metrics_used self r
  end.

(** The token names, the metric short names and the rank-column names do
    not collide. *)
Definition well_named (self : ExplanationEvalutator) (tokens : list string)
    : Prop :=
  NoDup (tokens ++ (SHORT_NAME <$> evaluation_measures self))
  ∧ ∀ m, m ∈ evaluation_measures self →
      SHORT_NAME m +:+ "_r"
        ∉ tokens ++ (SHORT_NAME <$> evaluation_measures self).


(** A metric call of the loop body: the metric with the rationale and the
    [target] it is given. *)
Definition planned_call : Type := Metric * option Rationale * option Z.

(** The metric calls made for one row, in order (lines 134-175). *)
Definition call_plan (self : ExplanationEvalutator) (r : option Rationale)
    (target : Z) : list planned_call :=
  ((λ m, (m, None, Some target)) <$> faithfulness_metrics self)
  ++ ((λ m, (m, r, None)) <$> plausibility_used self r)
  ++ ((λ m, (m, None, Some target)) <$> other_measures self).

(** [evaluation_scores[name][label]], if present. *)
Definition score_entry (es : score_table) (name label : string) : option Qc :=
  inner ← dict_get es name; dict_get inner label.

(** The score table after the calls of a plan for one row. *)
Definition record_plan (plan : list planned_call) (text : string)
    (v : ndarray) (args : kwargs) (label : string) (es : score_table)
    : score_table :=
  foldl (λ es c, store_score es (SHORT_NAME c.1.1) label
                   (evaluate_explanation c.1.1 text v c.1.2 c.2 args)) es plan.

(** The columns of a score table laid out on the row labels [idx]. *)
Definition score_columns (idx : list string) (es : score_table)
    : list (string * list cell) :=
  (λ kv, (kv.1, (λ label, from_option Float NaN (dict_get kv.2 label)) <$> idx))
    <$> es.

(** The merged table (line 177): the working copy followed by the score
    columns. *)
Definition unranked_table (self : ExplanationEvalutator) (text : string)
    (df : DataFrame) (r : option Rationale) (target : Z) (args : kwargs)
    : DataFrame :=
  {| index := index df;
     columns := columns (renamed df)
       ++ score_columns (index df)
            (foldl (row_scores self text df r target args) [] (index df)) |}.

(** A gradient over a named, non-empty set of columns of [d]. *)
Definition names_columns_of (d : DataFrame) (op : style_op) : Prop :=
  match op with
  | background_gradient _ _ _ _ (Some cs) => cs ≠ [] ∧ cs ⊆ column_names d
  | _ => False
  end.

(** ** Example objects *)

Module Examples.

Definition q (a : Z) (b : positive) : Qc := Q2Qc (a # b).

(** A tokenizer with [CLS]/[SEP] ids around the word pieces: "running" has
    two pieces, the empty word none, every other word one. *)
Definition tok : Tokenizer :=
  {| encode := λ w,
       if decide (w = "running") then [101; 5; 6; 102]
       else if decide (w = "") then [101; 102]
       else [101; 7; 102] |}.

(** Scores for the examples: the first cell of the explainer's row. *)
Definition first_cell (v : ndarray) : Qc :=
  match v with
  | Vec (Float x :: _) => x
  | _ => q 0 1
  end.

Definition m_hi : Metric :=
  {| SHORT_NAME := "hi"; TYPE_METRIC := "faithfulness";
     BEST_SORTING_ASCENDING := Some false; is_BaseEvaluator := false;
     evaluate_explanation := λ _ v _ _ _, first_cell v |}.

Definition m_lo : Metric :=
  {| SHORT_NAME := "lo"; TYPE_METRIC := "other";
     BEST_SORTING_ASCENDING := Some true; is_BaseEvaluator := false;
     evaluate_explanation := λ _ v _ _ _, first_cell v |}.

Definition m_pl : Metric :=
  {| SHORT_NAME := "pl"; TYPE_METRIC := "plausibility";
     BEST_SORTING_ASCENDING := None; is_BaseEvaluator := false;
     evaluate_explanation := λ _ _ r _ _, q (Z.of_nat (length (default [] r))) 1 |}.

Definition ev : ExplanationEvalutator :=
  {| modelw := ModelW "clf"; tokenizer := tok;
     faithfulness_metrics := [m_hi];
     plausibility_metrics := [m_pl];
     other_measures := [m_lo] |}.

(** Three explainers over "the cat the": the token "the" occurs twice. *)
Definition matrix : DataFrame :=
  {| index := ["lime"; "shap"; "ig"];
     columns :=
       [("the", [Float (q 9 10); Float (q 1 2); Float (q 1 2)]);
        ("cat", [Float (q 1 10); Float (q 1 5); Float (q 0 1)]);
        ("the", [Float (q 3 10); Float (q 1 2); Float (q 1 2)])] |}.

Definition s0 : state := {| heap := [matrix]; calls := [] |}.

(** A merged table as the ranker receives it. *)
Definition scored : DataFrame :=
  {| index := ["lime"; "shap"; "ig"];
     columns :=
       [("the", [Float (q 9 10); Float (q 1 2); Float (q 1 2)]);
        ("hi", [Float (q 9 10); Float (q 1 2); Float (q 1 2)]);
        ("lo", [Float (q 9 10); Float (q 1 2); Float (q 1 2)])] |}.

Definition s1 : state := {| heap := [scored]; calls := [] |}.


(** An evaluator without plausibility metrics. *)
Definition ev_faithful : ExplanationEvalutator :=
  {| modelw := ModelW "clf"; tokenizer := tok;
     faithfulness_metrics := [m_hi]; plausibility_metrics := [];
     other_measures := [m_lo] |}.

(** A metric library for the default branch of the constructor. *)
Definition lib0 : MetricLibrary :=
  {| AOPC_Comprehensiveness_Evaluation := λ _ _, m_hi;
     AOPC_Sufficiency_Evaluation := λ _ _, m_lo;
     TauLOO_Evaluation := λ _ _ _, m_lo;
     AUPRC_PlausibilityEvaluation := λ _ _, m_pl;
     Tokenf1_PlausibilityEvaluation := λ _ _, m_pl;
     TokenIOU_PlausibilityEvaluation := λ _ _, m_pl |}.

(** A table with a score column and no row. *)
Definition no_rows : DataFrame :=
  {| index := []; columns := [("the", []); ("hi", [])] |}.

Definition s2 : state := {| heap := [no_rows]; calls := [] |}.

(** A merged table in which two metrics returned no score for one
    explainer each. *)
Definition scored_nan : DataFrame :=
  {| index := ["lime"; "shap"; "ig"];
     columns :=
       [("the", [Float (q 9 10); Float (q 1 2); Float (q 1 2)]);
        ("hi", [Float (q 9 10); NaN; Float (q 1 2)]);
        ("lo", [NaN; Float (q 1 2); Float (q 9 10)])] |}.

Definition s3 : state := {| heap := [scored_nan]; calls := [] |}.





(** Two explanations of the same explainer: the label "lime" repeats. *)
Definition matrix_repeated : DataFrame :=
  {| index := ["lime"; "lime"];
     columns :=
       [("the", [Float (q 9 10); Float (q 1 2)]);
        ("cat", [Float (q 1 10); Float (q 1 5)])] |}.

Definition s4 : state := {| heap := [matrix_repeated]; calls := [] |}.

End Examples.

(** * Properties *)

(** ** Running the store-and-log monad *)

Lemma bind_run {A B} (m : M A) (f : A → M B) s :
  (m ≫= f) s =
  match m s with
  | (Ok a, s') => f a s'
  | (Raise e, s') => (Raise e, s')
  end.
Proof. reflexivity. Qed.

Lemma bind_ok {A B} (m : M A) (f : A → M B) s a s' :
  m s = (Ok a, s') → (m ≫= f) s = f a s'.
Proof. intros H. by rewrite bind_run, H. Qed.

Lemma ret_run {A} (a : A) s : (mret a : M A) s = (Ok a, s).
Proof. reflexivity. Qed.

(** ** The constructor *)

Section constructor.
Context (lib : MetricLibrary) (model : string) (tok : Tokenizer).

Lemma register_metrics_raises ms self :
  Exists (λ m, is_BaseEvaluator m = true) ms →
  register_metrics ms self = Raise ValueError.
Proof.
  intros Hex. revert self.
  induction ms as [|m ms IH]; intros self; [by apply Exists_nil in Hex|].
  simpl. destruct (is_BaseEvaluator m) eqn:Hm; [done|].
  apply Exists_cons in Hex as [Hex|Hex]; [congruence|].
  repeat case_decide; by apply IH.
Qed.

Lemma register_metrics_ok ms self :
  Forall (λ m, is_BaseEvaluator m = false) ms →
  register_metrics ms self =
    Ok {| modelw := modelw self; tokenizer := tokenizer self;
          faithfulness_metrics := faithfulness_metrics self
            ++ filter (λ m, TYPE_METRIC m = "faithfulness") ms;
          plausibility_metrics := plausibility_metrics self
            ++ filter (λ m, TYPE_METRIC m = "plausibility") ms;
          other_measures := other_measures self
            ++ filter (λ m, TYPE_METRIC m ≠ "faithfulness"
                            ∧ TYPE_METRIC m ≠ "plausibility") ms |}.
Proof.
  intros Hall. revert self.
  induction Hall as [|m ms Hm _ IH]; intros self; simpl.
  - rewrite !app_nil_r. by destruct self.
  - rewrite Hm. rewrite !filter_cons.
    destruct (decide (TYPE_METRIC m = "faithfulness")) as [Hf|Hf].
    { rewrite IH; simpl. rewrite Hf.
      repeat case_decide;
        first [discriminate | tauto | by rewrite <-!app_assoc]. }
    destruct (decide (TYPE_METRIC m = "plausibility")) as [Hp|Hp].
    { rewrite IH; simpl.
      repeat case_decide;
        first [discriminate | tauto | by rewrite <-!app_assoc]. }
    rewrite IH; simpl.
    repeat case_decide;
      first [discriminate | tauto | by rewrite <-!app_assoc].
Qed.

(** The explicit branch raises exactly when one of the supplied objects
    is an instance of [BaseEvaluator]. *)
Lemma init_explicit_raises_iff ms kw :
  __init__ lib model tok (Some ms) kw = Raise ValueError
  ↔ Exists (λ m, is_BaseEvaluator m = true) ms.
Proof.
  split.
  - intros Hr. destruct (decide (Exists (λ m, is_BaseEvaluator m = true) ms))
      as [|Hn]; [done|].
    apply not_Exists_Forall in Hn; [|apply _].
    unfold __init__ in Hr. rewrite register_metrics_ok in Hr; [done|].
    eapply Forall_impl; [done|]. simpl. intros m. by destruct (is_BaseEvaluator m).
  - apply register_metrics_raises.
Qed.
End constructor.

(** C1 (evaluated at the failing input): supplying one concrete metric
    that derives from [BaseEvaluator] makes the constructor raise
    [ValueError] instead of registering it in the faithfulness bucket. *)
Theorem init_rejects_concrete_metric lib model tok :
  __init__ lib model tok (Some [concrete_faithfulness_metric]) []
  = Raise ValueError.
Proof. reflexivity. Qed.

(** ** The aligner *)

Lemma inner_append_loop {A} (converted : list A) (flag : Z) acc s :
  for_acc converted (λ token_rationale _, mret (token_rationale ++ [flag])) acc s
  = (Ok (acc ++ replicate (length converted) flag), s).
Proof.
  revert acc. induction converted as [|x l IH]; intros acc; simpl.
  - by rewrite app_nil_r.
  - rewrite bind_run, ret_run, IH. by rewrite <-app_assoc.
Qed.

Lemma tokenizer_encode_run self t s :
  tokenizer_encode self t s
  = (Ok (encode (tokenizer self) t),
     {| heap := heap s; calls := calls s ++ [EvEncode t] |}).
Proof. reflexivity. Qed.

Lemma aligner_run self words rationale s :
  get_true_rational_tokens self words rationale s =
  (Ok (expected_alignment self words rationale),
   {| heap := heap s;
      calls := calls s ++ (EvEncode <$> (zip words rationale).*1) |}).
Proof.
  unfold get_true_rational_tokens, expected_alignment.
  enough (∀ acc s,
    for_acc (zip words rationale)
      (λ token_rationale p,
         ids ← tokenizer_encode self p.1;
         for_acc (slice_1_m1 ids)
           (λ token_rationale _, mret (token_rationale ++ [p.2])) token_rationale)
      acc s
    = (Ok (acc ++ mjoin (zip_with (λ w r, replicate (token_count self w) r)
                           words rationale)),
       {| heap := heap s;
          calls := calls s ++ (EvEncode <$> (zip words rationale).*1) |}))
    as H by apply (H []).
  revert rationale.
  induction words as [|w words IH]; intros [|r rationale] acc s'; simpl;
    try (rewrite !app_nil_r; by destruct s').
  rewrite bind_run.
  erewrite (bind_ok (tokenizer_encode _ _)) by apply tokenizer_encode_run.
  rewrite inner_append_loop, IH. simpl.
  unfold token_count. by rewrite <-!app_assoc.
Qed.

Lemma expected_alignment_length self words rationale :
  length words = length rationale →
  length (expected_alignment self words rationale)
  = sum_list (token_count self <$> words).
Proof.
  unfold expected_alignment. revert rationale.
  induction words as [|w words IH]; intros [|r rationale] Hlen; simplify_eq/=;
    [done|].
  rewrite length_app, length_replicate. f_equal. by apply IH.
Qed.

Lemma expected_alignment_delete self words rationale i w :
  words !! i = Some w → token_count self w = 0%nat →
  expected_alignment self (delete i words) (delete i rationale)
  = expected_alignment self words rationale.
Proof.
  unfold expected_alignment. revert i rationale.
  induction words as [|w' words IH]; intros [|i] [|r rationale] Hw H0;
    simplify_eq/=; try done.
  - by destruct words.
  - by rewrite H0.
  - f_equal. by eapply IH.
Qed.

(** C4: for a word sequence and a rationale of the same length the
    aligner returns (without raising) the concatenation, in word order, of
    each word's flag repeated once per sub-word token of that word; the
    length of the output is the sum of the per-word token counts, and a
    word with zero tokens contributes nothing: dropping it and its flag
    from the input gives the same output. *)
Theorem aligner_replicates_flags self words rationale s :
  length words = length rationale →
  (get_true_rational_tokens self words rationale s).1
    = Ok (expected_alignment self words rationale)
  ∧ length (expected_alignment self words rationale)
    = sum_list (token_count self <$> words)
  ∧ ∀ i w, words !! i = Some w → token_count self w = 0%nat →
      (get_true_rational_tokens self (delete i words) (delete i rationale) s).1
      = (get_true_rational_tokens self words rationale s).1.
Proof.
  intros Hlen. rewrite aligner_run. split_and!; [done| |].
  - by apply expected_alignment_length.
  - intros i w Hw H0. rewrite aligner_run. simpl. f_equal.
    by eapply expected_alignment_delete.
Qed.

Lemma fst_zip_min {A B} (l : list A) (k : list B) :
  (zip l k).*1 = take (length l `min` length k) l.
Proof.
  revert k. induction l as [|x l IH]; intros [|y k]; simpl; try done.
  by rewrite IH.
Qed.

(** C10: whatever the two lengths are the aligner returns normally: with
    [n = min (len words) (len rationale)], its result is the alignment of
    the first [n] words with the first [n] flags, the tokenizer is called
    on the first [n] words only, one call per word in order, and the whole
    run is the run on the two sequences cut to [n], so the surplus entries
    of the longer sequence contribute nothing. *)
Theorem aligner_truncates_to_shorter self words rationale s :
  let n := (length words `min` length rationale)%nat in
  get_true_rational_tokens self words rationale s
  = (Ok (expected_alignment self (take n words) (take n rationale)),
     {| heap := heap s; calls := calls s ++ (EvEncode <$> take n words) |})
  ∧ get_true_rational_tokens self words rationale s
    = get_true_rational_tokens self (take n words) (take n rationale) s.
Proof.
  intros n.
  assert (expected_alignment self (take n words) (take n rationale)
          = expected_alignment self words rationale) as Hcut.
  { unfold expected_alignment. subst n. by rewrite zip_with_take_both' by lia. }
  assert (zip (take n words) (take n rationale) = zip words rationale) as Hzip.
  { subst n. by rewrite zip_with_take_both' by lia. }
  rewrite !aligner_run, Hcut, Hzip. by rewrite fst_zip_min.
Qed.

(** ** Strings *)

Lemma string_app_cons a s1 s2 : String a s1 +:+ s2 = String a (s1 +:+ s2).
Proof. reflexivity. Qed.

Lemma string_length_app s1 s2 :
  String.length (s1 +:+ s2) = (String.length s1 + String.length s2)%nat.
Proof.
  induction s1 as [|a s1 IH]; [done|].
  rewrite string_app_cons. simpl. by rewrite IH.
Qed.

Lemma string_app_nil_r s : s +:+ "" = s.
Proof.
  induction s as [|a s IH]; [done|]. rewrite string_app_cons. by f_equal.
Qed.

Lemma string_app_assoc s1 s2 s3 : (s1 +:+ s2) +:+ s3 = s1 +:+ s2 +:+ s3.
Proof.
  induction s1 as [|a s1 IH]; [done|]. rewrite !string_app_cons. by f_equal.
Qed.

Lemma string_app_inj_r s x y : x +:+ s = y +:+ s → x = y.
Proof.
  revert y. induction x as [|a x IH]; intros [|b y] Heq; [done| | |].
  - apply (f_equal String.length) in Heq.
    rewrite !string_length_app in Heq. simpl in Heq. lia.
  - apply (f_equal String.length) in Heq.
    rewrite !string_length_app in Heq. simpl in Heq. lia.
  - rewrite !string_app_cons in Heq. simplify_eq. f_equal. by apply IH.
Qed.

(** ** Disambiguation of repeated column names *)

Module DedupFacts.
Import Pandas.

Lemma suffixed_trans_step n (k : nat) r :
  (r = n +:+ "." +:+ pretty k ∨ suffixed (n +:+ "." +:+ pretty k) r) →
  suffixed n r.
Proof.
  intros [->|(k' & rest & ->)].
  - exists k, "". by rewrite string_app_nil_r.
  - exists k, ("." +:+ pretty k' +:+ rest). by rewrite !string_app_assoc.
Qed.

Lemma count_of_insert counts k v n :
  count_of (<[k:=v]> counts) n = if decide (k = n) then v else count_of counts n.
Proof. unfold count_of. rewrite lookup_insert. by case_decide. Qed.

(** The inner loop stops: every round moves to a strictly longer name
    that is a key of the table. *)
Lemma mangle_total fuel counts col :
  (size (filter (λ k, String.length col ≤ String.length k)%nat (dom counts))
     < fuel)%nat →
  is_Some (mangle fuel counts col).
Proof.
  revert counts col. induction fuel as [|fuel IH]; intros counts col Hsz; [lia|].
  simpl. destruct (count_of counts col) as [|c] eqn:Hc; [by eexists|].
  apply IH.
  assert (col ∈ dom counts) as Hdom.
  { apply elem_of_dom. unfold count_of in Hc.
    destruct (counts !! col); [by eexists|done]. }
  eapply Nat.lt_le_trans; [|apply Nat.lt_succ_r, Hsz].
  apply subset_size. split.
  - intros k. rewrite !elem_of_filter, dom_insert, !string_length_app.
    intros [Hlen [->%elem_of_singleton|Hk]%elem_of_union]; (split; [lia|done]).
  - intros Hsub. specialize (Hsub col).
    rewrite !elem_of_filter, !string_length_app in Hsub.
    simpl in Hsub. destruct Hsub; [done|lia].
Qed.

Lemma mangle_spec fuel counts col r :
  mangle fuel counts col = Some r →
  count_of counts r.1 = 0%nat
  ∧ count_of r.2 r.1 = 0%nat
  ∧ (∀ n, count_of counts n ≤ count_of r.2 n)%nat
  ∧ (∀ n, count_of counts n = 0%nat → count_of r.2 n = 0%nat)
  ∧ (if decide (count_of counts col = 0%nat) then r.1 = col
     else suffixed col r.1).
Proof.
  revert counts col. induction fuel as [|fuel IH]; intros counts col; simpl.
  - destruct (count_of counts col) as [|c] eqn:Hc; [|done].
    intros [= <-]. simpl. by rewrite Hc.
  - destruct (count_of counts col) as [|c] eqn:Hc.
    { intros [= <-]. simpl. by rewrite Hc. }
    intros Hr. apply IH in Hr as (H1 & H2 & H3 & H4 & H5).
    rewrite (decide_False (P := S c = 0%nat)) by done.
    assert (r.1 ≠ col) as Hne.
    { intros Heq. rewrite Heq, count_of_insert, decide_True in H1; done. }
    split_and!.
    + by rewrite count_of_insert, decide_False in H1.
    + done.
    + intros n. specialize (H3 n). rewrite count_of_insert in H3.
      destruct (decide (col = n)) as [<-|?]; [lia|done].
    + intros n Hn. apply H4. rewrite count_of_insert.
      destruct (decide (col = n)) as [<-|?]; [congruence|done].
    + apply (suffixed_trans_step _ (S c)).
      destruct (decide _); [by left|by right].
Qed.

Lemma dedup_from_cons counts col names :
  dedup_from counts (col :: names)
  = (r ← mangle (S (size counts)) counts col;
     rest ← dedup_from (<[r.1:=1%nat]> r.2) names;
     Some (r.1 :: rest)).
Proof. reflexivity. Qed.

Lemma dedup_from_total counts names : is_Some (dedup_from counts names).
Proof.
  revert counts. induction names as [|col names IH]; intros counts;
    [by eexists|].
  rewrite dedup_from_cons.
  destruct (mangle_total (S (size counts)) counts col) as [r Hr].
  { apply Nat.lt_succ_r. rewrite <-(size_dom counts).
    apply subseteq_size. intros k. rewrite elem_of_filter. tauto. }
  rewrite Hr. simpl. destruct (IH (<[r.1:=1%nat]> r.2)) as [rest ->].
  by eexists.
Qed.

Lemma dedup_from_spec counts names res :
  dedup_from counts names = Some res →
  length res = length names
  ∧ NoDup res
  ∧ (∀ r, r ∈ res → count_of counts r = 0%nat)
  ∧ (∀ i n, names !! i = Some n →
       ∃ r, res !! i = Some r ∧ (r = n ∨ suffixed n r)
            ∧ ((0 < count_of counts n)%nat ∨ n ∈ take i names → suffixed n r)).
Proof.
  revert counts res. induction names as [|col names IH]; intros counts res.
  { intros [= <-]. split_and!; [done|constructor|set_solver|done]. }
  rewrite dedup_from_cons.
  destruct (mangle _ counts col) as [r|] eqn:Hr; [|done]. simpl.
  destruct (dedup_from _ names) as [rest|] eqn:Hrest; [|done]. simpl.
  intros [= <-].
  apply mangle_spec in Hr as (H1 & H2 & H3 & H4 & H5).
  apply IH in Hrest as (Hlen & Hnd & Hzero & Hpos).
  assert (∀ n, (0 < count_of counts n)%nat →
               (0 < count_of (<[r.1:=1%nat]> r.2) n)%nat) as Hmono.
  { intros n Hn. rewrite count_of_insert.
    destruct (decide (r.1 = n)); [lia|]. specialize (H3 n). lia. }
  split_and!.
  - simpl. by rewrite Hlen.
  - constructor; [|done]. intros Hin. apply Hzero in Hin.
    rewrite count_of_insert, decide_True in Hin; done.
  - intros x [->|Hx]%elem_of_cons; [done|].
    apply Hzero in Hx. destruct (count_of counts x) eqn:Hcx; [done|].
    specialize (Hmono x). lia.
  - intros [|i] n Hn; simplify_eq/=.
    + exists r.1. split; [done|].
      destruct (decide (count_of counts n = 0%nat)) as [Hc|Hc].
      * split; [by left|]. intros [?|Hin]; [lia|]. by apply elem_of_nil in Hin.
      * split; [by right|done].
    + destruct (Hpos i n Hn) as (x & Hx & Hor & Hsuf).
      exists x. split_and!; [done..|].
      intros [Hc|[->|Hin]%elem_of_cons]; apply Hsuf;
        [by left; apply Hmono| |by right].
      left. rewrite count_of_insert.
      destruct (decide (r.1 = col)) as [Hd|Hd]; [lia|].
      destruct (decide (count_of counts col = 0%nat)) as [Hc|Hc]; [congruence|].
      specialize (H3 col). lia.
Qed.

Lemma maybe_dedup_names_spec names :
  ∃ res, _maybe_dedup_names names = Some res
    ∧ length res = length names
    ∧ NoDup res
    ∧ (∀ i n, names !! i = Some n →
         ∃ r, res !! i = Some r ∧ (r = n ∨ suffixed n r)
              ∧ (n ∈ take i names → suffixed n r)).
Proof.
  unfold _maybe_dedup_names.
  destruct (dedup_from_total ∅ names) as [res Hres]. exists res.
  split; [done|]. apply dedup_from_spec in Hres as (Hlen & Hnd & _ & Hpos).
  split_and!; [done..|]. intros i n Hn.
  destruct (Hpos i n Hn) as (r & Hr & Hor & Hsuf). exists r.
  split_and!; [done..|]. intros Hin. apply Hsuf. by right.
Qed.

Lemma duplicated_from_none seen names :
  count_true (duplicated_from seen names) = 0%nat
  ↔ NoDup names ∧ ∀ n, n ∈ names → n ∉ seen.
Proof.
  revert seen. induction names as [|n names IH]; intros seen; simpl.
  { split; [|done]. intros _. split; [constructor|set_solver]. }
  unfold count_true in *. rewrite filter_cons. case_bool_decide as Hn.
  - rewrite decide_True by done. simpl. split; [lia|].
    intros [_ Hseen]. exfalso. eapply Hseen; [|done]. set_solver.
  - rewrite decide_False by done. rewrite IH, NoDup_cons. set_solver.
Qed.

Lemma duplicated_none names :
  count_true (duplicated names) = 0%nat ↔ NoDup names.
Proof. unfold duplicated. rewrite duplicated_from_none. set_solver. Qed.

End DedupFacts.

(** ** Store primitives *)

Lemma read_run l df s : heap s !! l = Some df → read l s = (Ok df, s).
Proof. intros H. unfold read. by rewrite H. Qed.

Lemma write_run l df d0 s :
  heap s !! l = Some d0 →
  write l df s = (Ok (), {| heap := <[l:=df]> (heap s); calls := calls s |}).
Proof. intros H. unfold write. by rewrite H. Qed.

Lemma alloc_run df s :
  alloc df s
  = (Ok (length (heap s)), {| heap := heap s ++ [df]; calls := calls s |}).
Proof. reflexivity. Qed.

Lemma lift_run {A} (a : A) e s : lift (Some a) e s = (Ok a, s).
Proof. reflexivity. Qed.

(** ** Objects that exist before a call are not touched by it *)

Section invariants.
Context (n : nat).

Lemma preserves_ret {A} (a : A) (Q : A → Prop) :
  Q a → preserves n (mret a) Q.
Proof. intros HQ s Hs. simpl. split_and!; [done..|]. by intros ? [= <-]. Qed.

Lemma preserves_raise {A} e (Q : A → Prop) : preserves n (raise e) Q.
Proof. intros s Hs. by split_and!. Qed.

Lemma preserves_lift {A} (o : option A) e : preserves n (lift o e) (λ _, True).
Proof. destruct o; [by apply preserves_ret|apply preserves_raise]. Qed.

Lemma preserves_log e : preserves n (log e) (λ _, True).
Proof. intros s Hs. by split_and!. Qed.

Lemma preserves_read l : preserves n (read l) (λ _, True).
Proof. intros s Hs. unfold read. by destruct (heap s !! l); split_and!. Qed.

Lemma preserves_alloc df : preserves n (alloc df) (λ l, n ≤ l)%nat.
Proof.
  intros s Hs. simpl. split_and!.
  - by rewrite take_app_le.
  - rewrite length_app. lia.
  - by intros ? [= <-].
Qed.

Lemma preserves_write l df :
  (n ≤ l)%nat → preserves n (write l df) (λ _, True).
Proof.
  intros Hl s Hs. unfold write. destruct (heap s !! l); [|by split_and!].
  simpl. split_and!; [|by rewrite length_insert|done].
  by rewrite take_insert_ge.
Qed.

Lemma preserves_bind {A B} (m : M A) (f : A → M B) Q R :
  preserves n m Q → (∀ a, Q a → preserves n (f a) R) →
  preserves n (m ≫= f) R.
Proof.
  intros Hm Hf s Hs. rewrite bind_run.
  destruct (Hm s Hs) as (Ht & Hlen & HQ).
  destruct (m s) as [[a|e] s'] eqn:Hms; simpl in *; [|by split_and!].
  destruct (Hf a (HQ a eq_refl) s' Hlen) as (Ht' & Hlen' & HR).
  split_and!; [congruence|done..].
Qed.

Lemma preserves_for {A} (l : list A) (body : A → M unit) :
  (∀ x, preserves n (body x) (λ _, True)) →
  preserves n (for_ l body) (λ _, True).
Proof.
  intros Hbody. induction l as [|x l IH]; simpl; [by apply preserves_ret|].
  eapply preserves_bind; [apply Hbody|]. by intros.
Qed.

Lemma preserves_for_acc {A S} (l : list A) (body : S → A → M S) acc :
  (∀ acc x, preserves n (body acc x) (λ _, True)) →
  preserves n (for_acc l body acc) (λ _, True).
Proof.
  intros Hbody. revert acc. induction l as [|x l IH]; intros acc; simpl;
    [by apply preserves_ret|].
  eapply preserves_bind; [apply Hbody|]. by intros.
Qed.
End invariants.

Lemma quiet_ret {A} (a : A) : quiet (mret a).
Proof. by intros s. Qed.

Lemma quiet_raise {A} e : quiet (raise e : M A).
Proof. by intros s. Qed.

Lemma quiet_lift {A} (o : option A) e : quiet (lift o e).
Proof. destruct o; [apply quiet_ret|apply quiet_raise]. Qed.

Lemma quiet_read l : quiet (read l).
Proof. intros s. unfold read. by destruct (heap s !! l). Qed.

Lemma quiet_alloc df : quiet (alloc df).
Proof. by intros s. Qed.

Lemma quiet_write l df : quiet (write l df).
Proof. intros s. unfold write. by destruct (heap s !! l). Qed.

Lemma quiet_bind {A B} (m : M A) (f : A → M B) :
  quiet m → (∀ a, quiet (f a)) → quiet (m ≫= f).
Proof.
  intros Hm Hf s. rewrite bind_run. specialize (Hm s).
  destruct (m s) as [[a|e] s']; simpl in *; [|done]. by rewrite Hf.
Qed.

Lemma quiet_for {A} (l : list A) (body : A → M unit) :
  (∀ x, quiet (body x)) → quiet (for_ l body).
Proof.
  intros Hbody. induction l as [|x l IH]; simpl; [apply quiet_ret|].
  apply quiet_bind; [apply Hbody|done].
Qed.

Create HintDb frame discriminated.
#[local] Hint Resolve preserves_raise preserves_lift preserves_log
  preserves_read preserves_alloc preserves_for preserves_for_acc : frame.
#[local] Hint Resolve quiet_ret quiet_raise quiet_lift quiet_read quiet_alloc
  quiet_write quiet_for : frame.

(** ** The caller's matrix is left alone *)

Section frame.
Context (self : ExplanationEvalutator) (n : nat).

Lemma preserves_set_columns l names :
  (n ≤ l)%nat → preserves n (set_columns l names) (λ _, True).
Proof.
  intros Hl. unfold set_columns.
  eapply preserves_bind; [apply preserves_read|intros df _].
  case_decide; [by apply preserves_write|apply preserves_raise].
Qed.

Lemma preserves_working_copy l :
  preserves n (working_copy l) (λ wc, n ≤ wc.1)%nat.
Proof.
  unfold working_copy, deepcopy.
  eapply preserves_bind.
  { eapply preserves_bind; [apply preserves_read|intros df _].
    apply preserves_alloc. }
  intros df_eval Hl. simpl in Hl.
  eapply preserves_bind; [apply preserves_read|intros expl _].
  eapply preserves_bind with (Q := λ _, True).
  { case_decide; [|by apply preserves_ret].
    eapply preserves_bind; [apply preserves_lift|intros names _].
    by apply preserves_set_columns. }
  intros _ _.
  eapply preserves_bind; [apply preserves_read|intros d _].
  by apply preserves_ret.
Qed.

Lemma preserves_evaluate_metrics ms text v r t args label es :
  preserves n (evaluate_metrics ms text v r t args label es) (λ _, True).
Proof.
  unfold evaluate_metrics. apply preserves_for_acc. intros acc m.
  eapply preserves_bind with (Q := λ _, True).
  { unfold call_metric.
    eapply preserves_bind; [apply preserves_log|intros _ _].
    by apply preserves_ret. }
  intros v' _.
  eapply preserves_bind; [apply preserves_lift|intros inner _].
  by apply preserves_ret.
Qed.

Lemma preserves_evaluate_rows text l r target args :
  preserves n (evaluate_rows self text l r target args) (λ _, True).
Proof.
  unfold evaluate_rows.
  eapply preserves_bind; [apply preserves_read|intros expl _].
  apply preserves_for_acc. intros es label. unfold evaluate_row.
  eapply preserves_bind; [apply preserves_read|intros df _].
  eapply preserves_bind; [apply preserves_lift|intros v _].
  eapply preserves_bind; [apply preserves_evaluate_metrics|intros es1 _].
  eapply preserves_bind with (Q := λ _, True).
  { destruct r; [case_decide|]; try by apply preserves_ret.
    apply preserves_evaluate_metrics. }
  intros es2 _. apply preserves_evaluate_metrics.
Qed.

Lemma preserves_rank_explainers l score_cols :
  (n ≤ l)%nat →
  preserves n (_rank_explainers self l score_cols) (λ l', n ≤ l')%nat.
Proof.
  intros Hl. unfold _rank_explainers.
  eapply preserves_bind; [apply preserves_read|intros d _].
  eapply preserves_bind with (Q := λ _, True).
  { apply preserves_for. intros c.
    eapply preserves_bind; [apply preserves_read|intros d1 _].
    eapply preserves_bind; [apply preserves_lift|intros v _].
    eapply preserves_bind; [apply preserves_lift|intros d' _].
    by apply preserves_write. }
  intros _ _.
  eapply preserves_bind; [apply preserves_read|intros d2 _].
  eapply preserves_bind with (Q := λ _, True).
  { apply preserves_for. intros c.
    eapply preserves_bind; [apply preserves_read|intros d1 _].
    eapply preserves_bind; [apply preserves_lift|intros d' _].
    by apply preserves_write. }
  intros _ _.
  eapply preserves_bind; [apply preserves_read|intros d3 _].
  eapply preserves_bind; [apply preserves_lift|intros out _].
  apply preserves_alloc.
Qed.

Lemma preserves_evaluate_explainers text l r rank style target args :
  preserves n (evaluate_explainers self text l r rank style target args)
    (λ res, n ≤ res.1)%nat.
Proof.
  unfold evaluate_explainers.
  eapply preserves_bind; [apply preserves_working_copy|intros wc Hwc].
  eapply preserves_bind; [apply preserves_evaluate_rows|intros es _].
  eapply preserves_bind; [apply preserves_read|intros d _].
  eapply preserves_bind; [apply preserves_lift|intros merged _].
  eapply preserves_bind; [apply preserves_alloc|intros df_eval Hdf].
  eapply preserves_bind with (Q := λ l', (n ≤ l')%nat).
  { destruct rank; [by apply preserves_rank_explainers|by apply preserves_ret]. }
  intros df_eval' Hdf'.
  eapply preserves_bind with (Q := λ _, True).
  { destruct style; [|by apply preserves_ret].
    unfold _style_result.
    eapply preserves_bind with (Q := λ _, True); [|intros; by apply preserves_ret].
    eapply preserves_bind; [apply preserves_read|intros; by apply preserves_ret]. }
  intros sty _. by apply preserves_ret.
Qed.
End frame.

(** C8: whatever the arguments, and whether the call returns or raises,
    the object the caller passed as explanation matrix holds the same
    frame (row labels, column names, cells) after [evaluate_explainers] as
    before; the table that is returned is a different object. *)
Theorem evaluate_explainers_keeps_input self text l df r rank style target
    args s :
  heap s !! l = Some df →
  let out := evaluate_explainers self text l r rank style target args s in
  heap out.2 !! l = Some df
  ∧ ∀ res, out.1 = Ok res → res.1 ≠ l.
Proof.
  intros Hl out.
  destruct (preserves_evaluate_explainers self (length (heap s)) text l r rank
              style target args s) as (Htake & Hlen & Hres); [done|].
  fold out in Htake, Hlen, Hres.
  apply lookup_lt_Some in Hl as Hlt.
  split.
  - rewrite <-(lookup_take_lt _ (length (heap s))) by done.
    rewrite Htake, lookup_take_lt by done. done.
  - intros res Hr. apply Hres in Hr. lia.
Qed.

(** ** Rank columns *)

Module RankFacts.
Import Rank.

Lemma elem_of_below qs x y : y ∈ below qs x ↔ (y < x)%Qc ∧ y ∈ qs.
Proof. unfold below. by rewrite elem_of_remove_dups, list_elem_of_filter. Qed.

Lemma NoDup_below qs x : NoDup (below qs x).
Proof. apply NoDup_remove_dups. Qed.

Lemma dense_rank_pos qs x : 1 ≤ dense_rank qs x.
Proof. unfold dense_rank. lia. Qed.

Lemma dense_rank_le qs x y : (x ≤ y)%Qc → dense_rank qs x ≤ dense_rank qs y.
Proof.
  intros Hxy. unfold dense_rank.
  assert (length (below qs x) ≤ length (below qs y))%nat; [|lia].
  apply submseteq_length, NoDup_submseteq; [apply NoDup_below|].
  intros z. rewrite !elem_of_below. intros [Hz ?]. split; [|done].
  by eapply Qclt_le_trans.
Qed.

Lemma dense_rank_lt qs x y :
  x ∈ qs → (x < y)%Qc → dense_rank qs x < dense_rank qs y.
Proof.
  intros Hx Hxy. unfold dense_rank.
  assert (length (x :: below qs x) ≤ length (below qs y))%nat; [|simpl in *; lia].
  apply submseteq_length, NoDup_submseteq.
  - constructor; [|apply NoDup_below].
    rewrite elem_of_below. intros [Hlt _]. by apply Qclt_not_eq in Hlt.
  - intros z. rewrite elem_of_cons, !elem_of_below. intros [->|[Hz ?]]; [done|].
    split; [|done]. by etrans.
Qed.

Lemma dense_rank_le_distinct qs x : x ∈ qs → dense_rank qs x ≤ distinct qs.
Proof.
  intros Hx. unfold dense_rank, distinct.
  assert (length (x :: below qs x) ≤ length (remove_dups qs))%nat; [|simpl in *; lia].
  apply submseteq_length, NoDup_submseteq.
  - constructor; [|apply NoDup_below].
    rewrite elem_of_below. intros [Hlt _]. by apply Qclt_not_eq in Hlt.
  - intros z. rewrite elem_of_cons, elem_of_below, elem_of_remove_dups.
    by intros [->|[_ ?]].
Qed.

Lemma distinct_le_length qs : distinct qs ≤ Z.of_nat (length qs).
Proof.
  unfold distinct.
  assert (length (remove_dups qs) ≤ length qs)%nat; [|lia].
  apply submseteq_length, NoDup_submseteq; [apply NoDup_remove_dups|].
  intros z. by rewrite elem_of_remove_dups.
Qed.

Lemma dense_rank_inj qs x y :
  x ∈ qs → y ∈ qs → dense_rank qs x = dense_rank qs y → x = y.
Proof.
  intros Hx Hy Heq.
  destruct (Qc_dec x y) as [[Hlt|Hgt]|Heq']; [| |done].
  - pose proof (dense_rank_lt qs x y Hx Hlt). lia.
  - pose proof (dense_rank_lt qs y x Hy Hgt). lia.
Qed.

(** The ranks of the distinct values are exactly [1..distinct qs]. *)
Lemma dense_ranks_perm qs :
  dense_rank qs <$> remove_dups qs ≡ₚ seqZ 1 (distinct qs).
Proof.
  apply submseteq_length_Permutation.
  - apply NoDup_submseteq.
    + apply NoDup_fmap_2_strong; [|apply NoDup_remove_dups].
      intros x y. rewrite !elem_of_remove_dups. apply dense_rank_inj.
    + intros k. rewrite list_elem_of_fmap. intros (x & -> & Hx).
      rewrite elem_of_remove_dups in Hx. rewrite elem_of_seqZ.
      pose proof (dense_rank_pos qs x).
      pose proof (dense_rank_le_distinct qs x Hx). lia.
  - rewrite length_seqZ, length_fmap. unfold distinct. lia.
Qed.

Lemma elem_of_rankdata qs k : k ∈ rankdata qs ↔ 1 ≤ k ≤ distinct qs.
Proof.
  transitivity (k ∈ dense_rank qs <$> remove_dups qs).
  - unfold rankdata. rewrite !list_elem_of_fmap.
    by setoid_rewrite elem_of_remove_dups.
  - rewrite dense_ranks_perm, elem_of_seqZ. lia.
Qed.

Lemma py_max_spec l m : py_max l = Some m → m ∈ l ∧ Forall (λ x, x ≤ m) l.
Proof.
  destruct l as [|x l]; [done|]. simpl. intros [= <-].
  revert x. induction l as [|y l IH]; intros x; simpl.
  - split; [set_solver|]. by repeat constructor.
  - destruct (IH (Z.max x y)) as [Hin Hall].
    apply Forall_cons in Hall as [Hxy Hall]. split.
    + apply elem_of_cons in Hin as [Hin|Hin]; [|set_solver].
      rewrite Hin. destruct (Z.max_spec x y) as [[_ ->]|[_ ->]]; set_solver.
    + repeat constructor; [lia..|done].
Qed.

Lemma distinct_pos qs : qs ≠ [] → 1 ≤ distinct qs.
Proof.
  destruct qs as [|q qs]; [done|]. intros _.
  pose proof (dense_rank_pos (q :: qs) q).
  pose proof (dense_rank_le_distinct (q :: qs) q (list_elem_of_here _ _)). lia.
Qed.

Lemma py_max_rankdata qs : qs ≠ [] → py_max (rankdata qs) = Some (distinct qs).
Proof.
  intros Hne. destruct (py_max (rankdata qs)) as [m|] eqn:Hm.
  - apply py_max_spec in Hm as [Hin Hall]. f_equal.
    apply elem_of_rankdata in Hin.
    assert (distinct qs ∈ rankdata qs) as HD.
    { apply elem_of_rankdata. pose proof (distinct_pos qs Hne). lia. }
    rewrite Forall_forall in Hall. apply Hall in HD. lia.
  - by destruct qs.
Qed.

Lemma rank_column_eq ascending qs :
  qs ≠ [] →
  rank_column ascending (Z.of_nat (length qs)) qs
  = Some (if ascending then rankdata qs
          else (λ r, distinct qs + 1 - r) <$> rankdata qs).
Proof.
  intros Hne. destruct ascending; [done|]. unfold rank_column, invert_ranks.
  rewrite py_max_rankdata by done. simpl.
  pose proof (distinct_le_length qs). by rewrite Z.min_r by done.
Qed.

Lemma rank_column_length ascending n qs rs :
  rank_column ascending n qs = Some rs → length rs = length qs.
Proof.
  unfold rank_column, invert_ranks, rankdata. destruct ascending.
  - intros [= <-]. by rewrite length_fmap.
  - destruct (py_max _); simpl; [|done]. intros [= <-].
    by rewrite !length_fmap.
Qed.

Lemma rankdata_lookup qs i q :
  qs !! i = Some q → rankdata qs !! i = Some (dense_rank qs q).
Proof. intros H. unfold rankdata. by rewrite list_lookup_fmap, H. Qed.



(** Dense ranking in either direction: ranks within [1, N], equal scores
    share a rank, and the ranks used are exactly [1 .. distinct]. *)
Lemma rank_column_dense ascending qs rs :
  rank_column ascending (Z.of_nat (length qs)) qs = Some rs →
  Forall (λ r, 1 ≤ r ≤ Z.of_nat (length qs)) rs
  ∧ (∀ i j q, qs !! i = Some q → qs !! j = Some q →
       is_Some (rs !! i) ∧ rs !! i = rs !! j)
  ∧ (∀ k, k ∈ rs ↔ 1 ≤ k ≤ distinct qs).
Proof.
  destruct (decide (qs = [])) as [->|Hne].
  { destruct ascending; [|done]. intros [= <-]. split_and!.
    - constructor.
    - by intros ???.
    - intros k. unfold distinct. simpl. split; [by intros ?%elem_of_nil|lia]. }
  rewrite rank_column_eq by done. intros [= <-].
  pose proof (distinct_le_length qs) as HDN.
  split_and!.
  - apply Forall_forall. intros r Hr. destruct ascending.
    + apply elem_of_rankdata in Hr. lia.
    + apply list_elem_of_fmap in Hr as (r' & -> & Hr').
      apply elem_of_rankdata in Hr'. lia.
  - intros i j q Hi Hj.
    apply rankdata_lookup in Hi, Hj. destruct ascending.
    + rewrite Hi, Hj. split; [by eexists|done].
    + rewrite !list_lookup_fmap, Hi, Hj. split; [by eexists|done].
  - intros k. destruct ascending; [apply elem_of_rankdata|].
    rewrite list_elem_of_fmap. split.
    + intros (r & -> & Hr%elem_of_rankdata). lia.
    + intros Hk. exists (distinct qs + 1 - k). split; [lia|].
      apply elem_of_rankdata. lia.
Qed.


End RankFacts.

(** ** Ranks of a column that may have missing values *)

Lemma max_rank_numeric r : max_rank (Some <$> r) = Some <$> Rank.py_max r.
Proof.
  destruct r as [|x r]; [done|]. simpl. do 2 f_equal.
  revert x. induction r as [|y r IH]; intros x; [done|]. simpl.
  case_bool_decide.
  - rewrite IH. by rewrite Z.max_r by lia.
  - rewrite IH. by rewrite Z.max_l by lia.
Qed.

Lemma min_rank_numeric n y : min_rank n (Some y) = Z.min n y.
Proof. unfold min_rank. case_bool_decide; lia. Qed.

Lemma invert_dense_numeric n (r : list Z) :
  invert_dense n (Some <$> r) = (fmap Some : list Z → list (option Z)) <$> Rank.invert_ranks n r.
Proof.
  unfold invert_dense, Rank.invert_ranks. rewrite max_rank_numeric.
  destruct (Rank.py_max r) as [m|]; [|done]. simpl. f_equal.
  rewrite <-!list_fmap_compose. apply list_fmap_ext. intros i x _. simpl.
  f_equal. case_bool_decide; lia.
Qed.

Lemma invert_dense_missing n k :
  invert_dense n (replicate (S k) None) = Some (replicate (S k) None).
Proof.
  unfold invert_dense.
  assert (max_rank (replicate (S k) None) = Some None) as ->.
  { simpl. f_equal. induction k as [|k IH]; [done|]. done. }
  f_equal. by rewrite fmap_replicate.
Qed.

Lemma mapM_cell_value_nil cells : mapM cell_value cells = None → cells ≠ [].
Proof. by intros H ->. Qed.

Lemma rank_values_numeric b n cells qs :
  mapM cell_value cells = Some qs →
  rank_values b n cells = (fmap Some : list Z → list (option Z)) <$> Rank.rank_column b n qs.
Proof.
  intros Hqs. unfold rank_values, rankdata_dense, Rank.rank_column.
  rewrite Hqs. destruct b; [done|]. apply invert_dense_numeric.
Qed.

Lemma rank_values_missing b n cells :
  mapM cell_value cells = None →
  rank_values b n cells = Some (replicate (length cells) None).
Proof.
  intros Hnan. unfold rank_values, rankdata_dense. rewrite Hnan.
  destruct b; [done|].
  destruct cells as [|x cells]; [done|]. apply invert_dense_missing.
Qed.

Lemma rank_values_total b n cells :
  cells ≠ [] → ∃ v, rank_values b n cells = Some v ∧ length v = length cells.
Proof.
  intros Hne. destruct (mapM cell_value cells) as [qs|] eqn:Hqs.
  - rewrite (rank_values_numeric b n cells qs Hqs).
    apply length_mapM in Hqs.
    destruct (Rank.rank_column b n qs) as [rs|] eqn:Hrs.
    + exists (Some <$> rs). split; [done|].
      apply RankFacts.rank_column_length in Hrs. rewrite length_fmap. lia.
    + exfalso. destruct b; [done|].
      unfold Rank.rank_column, Rank.invert_ranks, Rank.rankdata in Hrs.
      destruct qs; [by destruct cells|done].
  - rewrite rank_values_missing by done. eexists. split; [done|].
    by rewrite length_replicate.
Qed.

Lemma rank_cell_numeric (rs : list Z) : rank_cell <$> (Some <$> rs) = Int <$> rs.
Proof. by rewrite <-list_fmap_compose. Qed.


(** ** What the phases of [evaluate_explainers] compute *)

Lemma text_tokens_of_length names :
  length (text_tokens_of names) = length names.
Proof.
  unfold text_tokens_of. case_decide; [|done].
  destruct (DedupFacts.maybe_dedup_names_spec names) as (res & -> & Hlen & _).
  done.
Qed.


Lemma column_names_renamed df :
  column_names (renamed df) = text_tokens_of (column_names df).
Proof.
  unfold column_names, renamed. simpl. apply fst_zip.
  rewrite text_tokens_of_length. by rewrite !length_fmap.
Qed.

Lemma working_copy_run l df s :
  heap s !! l = Some df →
  working_copy l s
  = (Ok (length (heap s), text_tokens_of (column_names df)),
     {| heap := heap s ++ [renamed df]; calls := calls s |}).
Proof.
  intros Hl. unfold working_copy, deepcopy.
  rewrite !bind_run, (read_run l df) by done. cbv beta iota.
  rewrite alloc_run. cbv beta iota.
  set (s1 := {| heap := heap s ++ [df]; calls := calls s |}).
  assert (heap s1 !! l = Some df) as Hl1.
  { simpl. by apply lookup_app_l_Some. }
  assert (heap s1 !! length (heap s) = Some df) as Hc1.
  { simpl. by rewrite list_lookup_middle. }
  rewrite !bind_run, (read_run l df) by done. cbv beta iota.
  unfold renamed, text_tokens_of.
  destruct (decide (0 < count_true (duplicated (column_names df)))%nat) as [Hd|Hd].
  - destruct (DedupFacts.maybe_dedup_names_spec (column_names df))
      as (res & Hres & Hlen & _).
    rewrite Hres. rewrite !bind_run, lift_run. cbv beta iota.
    unfold set_columns.
    rewrite !bind_run, (read_run _ df) by done. cbv beta iota.
    rewrite decide_True
      by (by rewrite Hlen; unfold column_names; rewrite length_fmap).
    erewrite write_run by done. cbv beta iota.
    rewrite bind_run. erewrite read_run; cycle 1.
    { simpl. rewrite insert_app_r_alt, Nat.sub_diag by done. simpl.
      by rewrite list_lookup_middle. }
    rewrite ret_run. subst s1. simpl.
    rewrite insert_app_r_alt, Nat.sub_diag by done. simpl.
    unfold column_names in *. simpl.
    rewrite fst_zip; [done|]. rewrite Hlen, !length_fmap. done.
  - rewrite !bind_run, ret_run. cbv beta iota.
    rewrite !bind_run, (read_run _ df) by done. cbv beta iota.
    rewrite ret_run. unfold column_names. rewrite zip_fst_snd.
    by destruct df.
Qed.

Lemma dict_get_is_Some {V} (d : list (string * V)) k :
  is_Some (dict_get d k) ↔ k ∈ d.*1.
Proof.
  induction d as [|[k' v] d IH]; simpl.
  - rewrite elem_of_nil. split; [by intros [??]|done].
  - case_decide; subst; [set_solver|]. rewrite IH. set_solver.
Qed.

Lemma dict_set_keys {V} (d : list (string * V)) k v :
  (dict_set d k v).*1 = if decide (k ∈ d.*1) then d.*1 else d.*1 ++ [k].
Proof.
  induction d as [|[k' v'] d IH]; [done|].
  unfold dict_set; fold (@dict_set V).
  destruct (decide (k' = k)) as [->|Hne]; rewrite !fmap_cons; cbn [fst].
  - by rewrite decide_True by set_solver.
  - rewrite IH. destruct (decide (k ∈ d.*1)).
    + by rewrite decide_True by set_solver.
    + by rewrite decide_False by set_solver.
Qed.

Lemma dict_get_set {V} (d : list (string * V)) k v k' :
  dict_get (dict_set d k v) k' = if decide (k = k') then Some v else dict_get d k'.
Proof.
  induction d as [|[k0 v0] d IH]; simpl.
  - by destruct (decide (k = k')).
  - destruct (decide (k0 = k)) as [->|Hne]; simpl.
    + by destruct (decide (k = k')).
    + rewrite IH. destruct (decide (k0 = k')) as [->|?]; [|done].
      by rewrite decide_False by done.
Qed.

Lemma evaluate_metrics_run ms text v r t args label es s :
  evaluate_metrics ms text v r t args label es s
  = (Ok (record_scores ms text v r t args label es),
     {| heap := heap s;
        calls := calls s ++ ((λ m, EvEvaluate m text v r t args) <$> ms) |}).
Proof.
  unfold evaluate_metrics, record_scores. revert es s.
  induction ms as [|m ms IH]; intros es s; simpl.
  { rewrite app_nil_r. by destruct s. }
  rewrite bind_run. unfold call_metric at 1. rewrite !bind_run.
  unfold log at 1. cbv beta iota. rewrite ret_run. cbv beta iota zeta.
  unfold store_score.
  destruct (decide (SHORT_NAME m ∈ es.*1)) as [Hin|Hin].
  - apply dict_get_is_Some in Hin as [inner Hinner].
    rewrite bind_run, Hinner, lift_run. cbv beta iota.
    rewrite ret_run, IH. cbn [heap calls foldl default].
    by rewrite <-app_assoc.
  - rewrite bind_run, dict_get_set, decide_True, lift_run by done.
    cbv beta iota.
    rewrite ret_run, IH. cbn [heap calls foldl default].
    by rewrite <-app_assoc.
Qed.

Lemma positions_nonempty idx label : label ∈ idx → positions idx label ≠ [].
Proof.
  intros (i & Hi)%list_elem_of_lookup_1 Hnil.
  assert (i ∈ positions idx label) as Hin.
  { unfold positions. apply list_elem_of_filter. split; [done|].
    apply elem_of_seq. apply lookup_lt_Some in Hi. lia. }
  rewrite Hnil in Hin. by apply elem_of_nil in Hin.
Qed.

Lemma loc_values_is_Some df label :
  label ∈ index df → is_Some (loc_values df label).
Proof.
  intros Hin%positions_nonempty. unfold loc_values.
  destruct (positions (index df) label) as [|i [|j ps]]; [done|by eexists..].
Qed.

Lemma evaluate_row_run self text l df r target args es label s :
  heap s !! l = Some df → label ∈ index df →
  evaluate_row self text l r target args es label s
  = (Ok (row_scores self text df r target args es label),
     {| heap := heap s;
        calls := calls s ++ row_calls self text df r target args label |}).
Proof.
  intros Hl Hlabel. unfold evaluate_row, row_scores, row_calls.
  rewrite bind_run, (read_run l df) by done. cbv beta iota.
  destruct (loc_values_is_Some df label Hlabel) as [v Hv].
  rewrite Hv. cbn [default].
  rewrite bind_run, lift_run. cbv beta iota.
  rewrite bind_run, evaluate_metrics_run. cbv beta iota.
  rewrite bind_run.
  destruct r as [rat|]; cbn [plausibility_used].
  - destruct (decide (0 < length (plausibility_metrics self))%nat) as [Hp|Hp].
    + rewrite evaluate_metrics_run. cbv beta iota.
      rewrite evaluate_metrics_run. cbn [heap calls].
      by rewrite <-!app_assoc.
    + assert (plausibility_metrics self = []) as ->.
      { destruct (plausibility_metrics self); [done|simpl in Hp; lia]. }
      rewrite ret_run. cbv beta iota.
      rewrite evaluate_metrics_run. cbn [heap calls].
      by rewrite <-!app_assoc.
  - rewrite ret_run. cbv beta iota.
    rewrite evaluate_metrics_run. cbn [heap calls].
    by rewrite <-!app_assoc.
Qed.

Lemma evaluate_rows_run self text l df r target args s :
  heap s !! l = Some df →
  evaluate_rows self text l r target args s
  = (Ok (foldl (row_scores self text df r target args) [] (index df)),
     {| heap := heap s;
        calls := calls s
                 ++ (label ← index df; row_calls self text df r target args label) |}).
Proof.
  intros Hl. unfold evaluate_rows.
  rewrite bind_run, (read_run l df) by done. cbv beta iota.
  enough (∀ rows es s, heap s !! l = Some df → Forall (λ x, x ∈ index df) rows →
    for_acc rows (evaluate_row self text l r target args) es s
    = (Ok (foldl (row_scores self text df r target args) es rows),
       {| heap := heap s;
          calls := calls s
             ++ (label ← rows; row_calls self text df r target args label) |}))
    as H.
  { apply H; [done|]. by apply Forall_forall. }
  clear s Hl. intros rows. induction rows as [|label rows IH];
    intros es s Hl Hall.
  { simpl. rewrite app_nil_r. by destruct s. }
  apply Forall_cons in Hall as [Hlabel Hall].
  cbn [for_acc]. rewrite bind_run, (evaluate_row_run _ _ _ df) by done.
  cbv beta iota. rewrite IH by done. cbn [heap calls foldl].
  by rewrite <-app_assoc.
Qed.

(** ** The keys of the score table *)

Lemma union_labels_cons a x b :
  union_labels a (x :: b)
  = union_labels (if decide (x ∈ a) then a else a ++ [x]) b.
Proof. reflexivity. Qed.

Lemma union_labels_app a b c :
  union_labels a (b ++ c) = union_labels (union_labels a b) c.
Proof. unfold union_labels. by rewrite foldl_app. Qed.

Lemma elem_of_union_labels a b x : x ∈ union_labels a b ↔ x ∈ a ∨ x ∈ b.
Proof.
  revert a. induction b as [|y b IH]; intros a.
  - simpl. set_solver.
  - rewrite union_labels_cons, IH. case_decide; set_solver.
Qed.

Lemma union_labels_subseteq a b : b ⊆ a → union_labels a b = a.
Proof.
  revert a. induction b as [|y b IH]; intros a Hsub; [done|].
  rewrite union_labels_cons, decide_True by set_solver. apply IH. set_solver.
Qed.

Lemma union_labels_disjoint a b : NoDup (a ++ b) → union_labels a b = a ++ b.
Proof.
  revert a. induction b as [|y b IH]; intros a Hnd.
  - by rewrite app_nil_r.
  - rewrite union_labels_cons.
    apply NoDup_app in Hnd as Hnd'. destruct Hnd' as (_ & Hdisj & _).
    rewrite decide_False by (intros Hy; eapply Hdisj; [done|set_solver]).
    rewrite (cons_middle y a b) in Hnd |- *. rewrite app_assoc in Hnd |- *.
    by apply IH.
Qed.

Lemma NoDup_union_labels a b : NoDup a → NoDup (union_labels a b).
Proof.
  revert a. induction b as [|y b IH]; intros a Hnd; [done|].
  rewrite union_labels_cons. apply IH. case_decide; [done|].
  apply NoDup_app. split_and!; [done|set_solver|apply NoDup_singleton].
Qed.

Lemma store_score_keys es name label v :
  (store_score es name label v).*1 = union_labels es.*1 [name].
Proof.
  unfold store_score. rewrite union_labels_cons. simpl.
  destruct (decide (name ∈ es.*1)) as [Hin|Hin].
  - by rewrite dict_set_keys, decide_True.
  - rewrite dict_set_keys.
    rewrite (dict_set_keys es), (decide_False (P := name ∈ es.*1)) by done.
    by rewrite decide_True by set_solver.
Qed.

Lemma record_scores_keys ms text v r t args label es :
  (record_scores ms text v r t args label es).*1
  = union_labels es.*1 (SHORT_NAME <$> ms).
Proof.
  unfold record_scores. revert es.
  induction ms as [|m ms IH]; intros es; [done|].
  cbn [foldl]. rewrite IH, store_score_keys. done.
Qed.

Lemma row_scores_keys self text df r target args es label :
  (row_scores self text df r target args es label).*1
  = union_labels es.*1 (SHORT_NAME <$> metrics_used self r).
Proof.
  unfold row_scores, metrics_used.
  rewrite !record_scores_keys, !fmap_app, !union_labels_app. done.
Qed.

Lemma rows_scores_keys self text df r target args rows :
  (foldl (row_scores self text df r target args) [] rows).*1
  = match rows with
    | [] => []
    | _ => union_labels [] (SHORT_NAME <$> metrics_used self r)
    end.
Proof.
  destruct rows as [|label rows]; [done|]. cbn [foldl].
  generalize (row_scores_keys self text df r target args [] label).
  generalize (row_scores self text df r target args [] label).
  induction rows as [|label' rows IH]; intros es Hes; [done|].
  cbn [foldl]. apply IH. rewrite row_scores_keys, Hes.
  apply union_labels_subseteq. intros k. rewrite elem_of_union_labels. tauto.
Qed.

(** ** The calls made by [evaluate_explainers] *)

Lemma quiet_set_columns l names : quiet (set_columns l names).
Proof.
  unfold set_columns. apply quiet_bind; [apply quiet_read|intros df].
  case_decide; [apply quiet_write|apply quiet_raise].
Qed.

Lemma quiet_rank_explainers self l score_cols :
  quiet (_rank_explainers self l score_cols).
Proof.
  unfold _rank_explainers.
  apply quiet_bind; [apply quiet_read|intros d].
  apply quiet_bind.
  { apply quiet_for. intros c.
    repeat (apply quiet_bind; [auto with frame|intros ?]). apply quiet_write. }
  intros _. apply quiet_bind; [apply quiet_read|intros d2].
  apply quiet_bind.
  { apply quiet_for. intros c.
    repeat (apply quiet_bind; [auto with frame|intros ?]). apply quiet_write. }
  intros _.
  repeat (apply quiet_bind; [auto with frame|intros ?]). apply quiet_alloc.
Qed.

Lemma quiet_style_result self l : quiet (_style_result self l).
Proof.
  unfold _style_result. apply quiet_bind; [apply quiet_read|intros ?].
  apply quiet_ret.
Qed.

Lemma evaluate_explainers_calls self text l df r rank style target args s :
  heap s !! l = Some df →
  calls (evaluate_explainers self text l r rank style target args s).2
  = calls s ++ (label ← index df; row_calls self text df r target args label).
Proof.
  intros Hl. unfold evaluate_explainers.
  rewrite bind_run, (working_copy_run l df) by done. cbv beta iota.
  rewrite bind_run, (evaluate_rows_run _ _ _ df)
    by (by apply lookup_app_l_Some). cbv beta iota.
  match goal with |- calls (?m ?s).2 = _ =>
    assert (quiet m) as Hq end.
  { apply quiet_bind; [apply quiet_read|intros d].
    apply quiet_bind; [apply quiet_lift|intros merged].
    apply quiet_bind; [apply quiet_alloc|intros df_eval].
    apply quiet_bind.
    { destruct rank; [apply quiet_rank_explainers|apply quiet_ret]. }
    intros df_eval'. apply quiet_bind; [|intros; apply quiet_ret].
    destruct style; [|apply quiet_ret].
    apply quiet_bind; [apply quiet_style_result|intros; apply quiet_ret]. }
  by rewrite Hq.
Qed.


(** C9: with a rationale supplied, the calls made by [evaluate_explainers]
    are the row-by-row metric calls and nothing else: every plausibility
    metric is called for every row with exactly the caller's rationale,
    any call that carries a rationale carries that one and is a call to a
    registered plausibility metric, and the tokenizer is never called (the
    aligner is not run). *)
Theorem rationale_forwarded_unaligned self text l df rationale rank style
    target args s :
  heap s !! l = Some df →
  ∃ new,
    calls (evaluate_explainers self text l (Some rationale) rank style target
             args s).2 = calls s ++ new
    ∧ (∀ p label, p ∈ plausibility_metrics self → label ∈ index df →
         EvEvaluate p text (default (Vec []) (loc_values df label))
           (Some rationale) None args ∈ new)
    ∧ (∀ m t v r' tg a, EvEvaluate m t v (Some r') tg a ∈ new →
         r' = rationale ∧ m ∈ plausibility_metrics self)
    ∧ (∀ w, EvEncode w ∉ new).
Proof.
  intros Hl. eexists. split; [by apply evaluate_explainers_calls|].
  split_and!.
  - intros p label Hp Hlabel. apply list_elem_of_bind. exists label.
    split; [|done]. unfold row_calls. simpl.
    rewrite !elem_of_app, !list_elem_of_fmap. right; left. by exists p.
  - intros m t v r' tg a (label & Hin & _)%list_elem_of_bind.
    unfold row_calls in Hin. simpl in Hin.
    rewrite !elem_of_app, !list_elem_of_fmap in Hin.
    destruct Hin as [(?&?&?)|[(p&?&?)|(?&?&?)]]; by simplify_eq.
  - intros w (label & Hin & _)%list_elem_of_bind.
    unfold row_calls in Hin.
    rewrite !elem_of_app, !list_elem_of_fmap in Hin.
    destruct Hin as [(?&?&?)|[(p&?&?)|(?&?&?)]]; by simplify_eq.
Qed.

(** ** Column names of the working copy *)


(** ** Frames with distinct column names *)

Lemma filter_key_absent {V} (cols : list (string * V)) c :
  c ∉ cols.*1 → filter (λ col, col.1 = c) cols = [].
Proof.
  induction cols as [|[k v] cols IH]; [done|]. rewrite fmap_cons. cbn [fst].
  intros Hc. rewrite filter_cons_False by (simpl; set_solver).
  apply IH. set_solver.
Qed.

Lemma filter_key_unique {V} (cols : list (string * V)) c v :
  NoDup cols.*1 → (c, v) ∈ cols → filter (λ col, col.1 = c) cols = [(c, v)].
Proof.
  induction cols as [|[k w] cols IH]; [by intros _ ?%elem_of_nil|].
  rewrite fmap_cons. cbn [fst]. intros [Hk Hnd]%NoDup_cons Hin.
  apply elem_of_cons in Hin as [[= <- <-]|Hin].
  - rewrite filter_cons_True by done. f_equal. by apply filter_key_absent.
  - assert (k ≠ c) as Hne.
    { intros ->. apply Hk. apply list_elem_of_fmap. by exists (c, v). }
    rewrite filter_cons_False by done. by apply IH.
Qed.

Lemma getitem_unique d c col :
  NoDup (column_names d) → (c, col) ∈ columns d → getitem d c = [col].
Proof.
  intros Hnd Hin. unfold getitem. by erewrite filter_key_unique.
Qed.

Lemma list_bind_ext_in {A B} (f g : A → list B) l :
  (∀ x, x ∈ l → f x = g x) → l ≫= f = l ≫= g.
Proof.
  induction l as [|x l IH]; intros Hfg; [done|].
  rewrite !bind_cons, Hfg, IH by set_solver. done.
Qed.

Lemma ravel_single col : ravel (length col) [col] = col.
Proof.
  unfold ravel. induction col as [|x col IH] using rev_ind; [done|].
  rewrite length_app, Nat.add_1_r, seq_S, bind_app. simpl.
  rewrite list_lookup_middle by done. simpl. f_equal.
  rewrite <-IH at 2. apply list_bind_ext_in. intros i Hi%elem_of_seq.
  simpl. by rewrite lookup_app_l by lia.
Qed.

Lemma column_of_name d c :
  c ∈ column_names d → ∃ col, (c, col) ∈ columns d.
Proof.
  intros ([c' col] & -> & Hin)%list_elem_of_fmap. by exists col.
Qed.

Lemma column_cells_unique d c col :
  wf_frame d → NoDup (column_names d) → (c, col) ∈ columns d →
  column_cells d c = col.
Proof.
  intros Hwf Hnd Hin. unfold column_cells.
  rewrite (getitem_unique d c col) by done.
  unfold wf_frame in Hwf. rewrite Forall_forall in Hwf.
  rewrite <-(Hwf _ Hin). simpl. by rewrite ravel_single.
Qed.

Lemma cell_values_total col :
  Forall (λ x, x ≠ NaN) col → is_Some (mapM cell_value col).
Proof.
  intros Hall. apply mapM_is_Some. eapply Forall_impl; [done|].
  intros [q|z|] Hx; simpl; [by eexists..|done].
Qed.

Lemma setitem_new d name v :
  name ∉ column_names d → length v = length (index d) →
  setitem d name v
  = Some {| index := index d; columns := columns d ++ [(name, v)] |}.
Proof.
  intros Hname Hlen. unfold setitem.
  by rewrite decide_True, decide_False by done.
Qed.

(** ** The two ranking loops *)

Lemma column_names_add_ranks ascending d cs :
  column_names (add_ranks ascending d cs)
  = column_names d ++ ((λ c, c +:+ "_r") <$> cs).
Proof.
  unfold column_names, add_ranks. simpl. rewrite fmap_app. f_equal.
  by rewrite <-list_fmap_compose.
Qed.

Lemma column_cells_append d name v c :
  c ≠ name →
  column_cells {| index := index d; columns := columns d ++ [(name, v)] |} c
  = column_cells d c.
Proof.
  intros Hne. unfold column_cells, getitem. simpl.
  by rewrite filter_app, filter_cons_False, filter_nil, app_nil_r
    by (simpl; congruence).
Qed.

Lemma rank_loop_run ascending l cs : ∀ d s,
  heap s !! l = Some d →
  wf_frame d → NoDup (column_names d) → NoDup cs →
  (cs ≠ [] → index d ≠ []) →
  (∀ c, c ∈ cs → c ∈ column_names d) →
  (∀ c, c ∈ cs → c +:+ "_r" ∉ column_names d) →
  for_ cs (rank_body ascending l) s
  = (Ok (), {| heap := <[l := add_ranks ascending d cs]> (heap s);
               calls := calls s |}).
Proof.
  induction cs as [|c cs IH]; intros d s Hl Hwf Hnd Hcs Hrows Hcols Hfresh.
  { simpl. unfold add_ranks. simpl. rewrite app_nil_r.
    rewrite list_insert_id; [by destruct s|]. by destruct d. }
  apply NoDup_cons in Hcs as [Hc Hcs].
  destruct (column_of_name d c) as [col Hcol]; [apply Hcols; set_solver|].
  assert (length col = length (index d)) as Hlen.
  { unfold wf_frame in Hwf. rewrite Forall_forall in Hwf. apply (Hwf _ Hcol). }
  assert (col ≠ []) as Hne.
  { intros ->. apply Hrows; [done|]. apply length_zero_iff_nil.
    simpl in Hlen. lia. }
  assert (column_cells d c = col) as Hcells
    by by apply column_cells_unique.
  destruct (rank_values_total ascending (Z.of_nat (length (index d))) col Hne)
    as (v & Hv & Hlenv).
  set (d1 := {| index := index d;
                columns := columns d ++ [(c +:+ "_r", rank_cell <$> v)] |}).
  assert (∀ c', c' ∈ cs → c' ≠ c +:+ "_r") as Hother.
  { intros c' Hc' ->. apply (Hfresh c); [set_solver|]. apply Hcols. set_solver. }
  assert (add_ranks ascending d (c :: cs) = add_ranks ascending d1 cs) as ->.
  { unfold add_ranks. simpl. rewrite <-app_assoc. simpl. do 3 f_equal.
    - unfold ranks_of. by rewrite Hcells, Hv.
    - apply list_fmap_ext. intros i c' Hc'%list_elem_of_lookup_2. f_equal.
      unfold ranks_of. simpl. unfold d1.
      by rewrite (column_cells_append d) by by apply Hother. }
  cbn [for_]. rewrite bind_run. unfold rank_body at 1.
  rewrite !bind_run, (read_run l d) by done. cbv beta iota.
  rewrite !bind_run, Hcells, Hv, lift_run. cbv beta iota.
  rewrite setitem_new; cycle 1.
  { apply Hfresh. set_solver. }
  { rewrite length_fmap. lia. }
  rewrite !bind_run, lift_run. cbv beta iota.
  erewrite write_run by done. cbv beta iota.
  fold d1. rewrite (IH d1).
  - cbn [heap calls]. by rewrite list_insert_insert_eq.
  - cbn [heap]. apply list_lookup_insert_eq. by eapply lookup_lt_Some.
  - unfold wf_frame, d1. simpl. apply Forall_app. split; [done|].
    repeat constructor. simpl. rewrite length_fmap. lia.
  - unfold column_names, d1. simpl. rewrite fmap_app. simpl.
    apply NoDup_app. split_and!; [done| |apply NoDup_singleton].
    intros x Hx ->%list_elem_of_singleton. revert Hx. apply Hfresh. set_solver.
  - done.
  - intros _. simpl. apply Hrows. done.
  - intros c' Hc'. unfold column_names, d1. simpl. rewrite fmap_app.
    apply elem_of_app. left. apply Hcols. set_solver.
  - intros c' Hc'. unfold column_names, d1. simpl. rewrite fmap_app. simpl.
    rewrite elem_of_app, list_elem_of_singleton. intros [Hin|Heq].
    + revert Hin. apply Hfresh. set_solver.
    + apply string_app_inj_r in Heq. set_solver.
Qed.

Lemma filter_ext_in {A} (P Q : A → Prop) `{!∀ x, Decision (P x)}
    `{!∀ x, Decision (Q x)} (l : list A) :
  (∀ x, x ∈ l → P x ↔ Q x) → filter P l = filter Q l.
Proof.
  induction l as [|x l IH]; intros HPQ; [done|].
  rewrite !filter_cons, IH by set_solver.
  destruct (decide (P x)) as [HP|HP], (decide (Q x)) as [HQ|HQ]; try done;
    exfalso; apply (HPQ x) in HP || apply HP, (HPQ x); set_solver.
Qed.

Lemma NoDup_fmap_inj_in {A B} (f : A → B) (l : list A) x y :
  NoDup (f <$> l) → x ∈ l → y ∈ l → f x = f y → x = y.
Proof.
  induction l as [|z l IH]; [by intros _ ?%elem_of_nil|].
  rewrite fmap_cons, NoDup_cons, !elem_of_cons.
  intros [Hz Hnd] [->|Hx] [->|Hy] Heq; [done| | |by apply IH].
  - exfalso. apply Hz. rewrite Heq. by apply list_elem_of_fmap_2.
  - exfalso. apply Hz. rewrite <-Heq. by apply list_elem_of_fmap_2.
Qed.

Lemma ranks_of_length ascending d c col :
  wf_frame d → NoDup (column_names d) → index d ≠ [] →
  (c, col) ∈ columns d →
  length (ranks_of ascending d c) = length (index d).
Proof.
  intros Hwf Hnd Hrows Hcol.
  assert (length col = length (index d)) as Hlen.
  { unfold wf_frame in Hwf. rewrite Forall_forall in Hwf. apply (Hwf _ Hcol). }
  assert (col ≠ []) as Hne.
  { intros ->. apply Hrows. apply length_zero_iff_nil. simpl in Hlen. lia. }
  destruct (rank_values_total ascending (Z.of_nat (length (index d))) col Hne)
    as (v & Hv & Hlenv).
  unfold ranks_of. rewrite (column_cells_unique d c col), Hv by done.
  simpl. rewrite length_fmap. lia.
Qed.

Lemma ranks_of_spec ascending d c col :
  wf_frame d → NoDup (column_names d) → index d ≠ [] →
  (c, col) ∈ columns d → Forall (λ x, x ≠ NaN) col →
  ∃ qs v,
    mapM cell_value col = Some qs
    ∧ length qs = length (index d)
    ∧ Rank.rank_column ascending (Z.of_nat (length qs)) qs = Some v
    ∧ length v = length (index d)
    ∧ ranks_of ascending d c = Int <$> v.
Proof.
  intros Hwf Hnd Hrows Hcol Hnum.
  destruct (cell_values_total col Hnum) as [qs Hqs].
  assert (length col = length (index d)) as Hlen.
  { unfold wf_frame in Hwf. rewrite Forall_forall in Hwf. apply (Hwf _ Hcol). }
  apply length_mapM in Hqs as Hlenqs.
  assert (qs ≠ []) as Hne.
  { intros ->. apply Hrows. apply length_zero_iff_nil. simpl in Hlenqs. lia. }
  destruct (Rank.rank_column ascending (Z.of_nat (length qs)) qs)
    as [v|] eqn:Hv; [|by rewrite RankFacts.rank_column_eq in Hv].
  exists qs, v. split_and!; [done|lia|done| |].
  - apply RankFacts.rank_column_length in Hv. lia.
  - unfold ranks_of. rewrite (column_cells_unique d c col) by done.
    rewrite (rank_values_numeric _ _ col qs Hqs).
    replace (length (index d)) with (length qs) by lia. rewrite Hv. simpl.
    apply rank_cell_numeric.
Qed.


Lemma wf_add_ranks ascending d cs :
  wf_frame d → NoDup (column_names d) → (cs ≠ [] → index d ≠ []) →
  (∀ c, c ∈ cs → c ∈ column_names d) →
  wf_frame (add_ranks ascending d cs).
Proof.
  intros Hwf Hnd Hrows Hcols. unfold wf_frame, add_ranks. simpl.
  apply Forall_app. split; [done|]. apply Forall_fmap, Forall_forall.
  intros c Hc. simpl. destruct (column_of_name d c (Hcols c Hc)) as [col Hcol].
  eapply ranks_of_length; [done..| |done].
  apply Hrows. intros ->. by apply elem_of_nil in Hc.
Qed.


Lemma select_columns_elem {V} (cols : list (string * V)) (ns : list string) n v :
  n ∈ ns → (n, v) ∈ cols →
  (n, v) ∈ (n ← ns; filter (λ col, col.1 = n) cols).
Proof.
  intros Hn Hv. apply list_elem_of_bind. exists n. split; [|done].
  by apply list_elem_of_filter.
Qed.

(** ** [_rank_explainers] on a frame with distinct column names *)

Lemma rank_explainers_unfold self l score_cols :
  _rank_explainers self l score_cols
  = (d ← read l;
     let cols := column_names d in
     let show_higher_cols := show_cols_of false self cols in
     for_ show_higher_cols (rank_body false l);;
     d ← read l;
     let show_lower_cols := show_cols_of true self (column_names d) in
     for_ show_lower_cols (rank_body true l);;
     let show_cols :=
       metric_show ← SHORT_NAME <$> evaluation_measures self;
       if decide (metric_show ∈ show_higher_cols ++ show_lower_cols)
       then [metric_show; metric_show +:+ "_r"] else [] in
     let output_cols :=
       score_cols ++ show_cols
         ++ filter (λ c, c ∉ score_cols ++ show_cols) cols in
     d ← read l;
     out ← lift (getitem_list d output_cols) KeyError;
     alloc out).
Proof. reflexivity. Qed.

Section ranker.
Context (self : ExplanationEvalutator).

Lemma elem_of_show_cols_of b cols c :
  c ∈ show_cols_of b self cols
  ↔ ∃ m, m ∈ evaluation_measures self ∧ SHORT_NAME m = c
         ∧ BEST_SORTING_ASCENDING m = Some b ∧ c ∈ cols.
Proof.
  unfold show_cols_of. rewrite list_elem_of_fmap.
  setoid_rewrite list_elem_of_filter. naive_solver.
Qed.

Lemma NoDup_show_cols_of b cols :
  NoDup (SHORT_NAME <$> evaluation_measures self) →
  NoDup (show_cols_of b self cols).
Proof.
  intros Hnd. unfold show_cols_of.
  apply (sublist_NoDup _ (SHORT_NAME <$> evaluation_measures self)); [done|].
  apply fmap_sublist, sublist_filter.
Qed.

Section run.
Context (d : DataFrame) (score_cols : list string).
Context (Hrk : rankable self d score_cols).

Let higher := show_cols_of false self (column_names d).
Let lower := show_cols_of true self (column_names d).
Let d1 := add_ranks false d higher.

Lemma shown_has_rows b : show_cols_of b self (column_names d) ≠ [] → index d ≠ [].
Proof.
  intros Hne Hrows. destruct (show_cols_of b self (column_names d))
    as [|c cs] eqn:Hcs; [done|].
  assert (c ∈ show_cols_of b self (column_names d)) as Hc
    by (rewrite Hcs; set_solver).
  apply elem_of_show_cols_of in Hc as (m & Hm & <- & _ & Hin).
  by eapply (rk_rows _ _ _ Hrk).
Qed.

Lemma shown_column b c :
  c ∈ show_cols_of b self (column_names d) → c ∈ column_names d.
Proof. by intros (m & Hm & <- & Hb & Hin)%elem_of_show_cols_of. Qed.

Lemma shown_fresh b c :
  c ∈ show_cols_of b self (column_names d) →
  (c +:+ "_r" ∉ column_names d)
  ∧ (c +:+ "_r" ∉ SHORT_NAME <$> evaluation_measures self).
Proof.
  intros (m & Hm & <- & _)%elem_of_show_cols_of.
  pose proof (rk_fresh _ _ _ Hrk m Hm) as Hf. set_solver.
Qed.

Lemma column_names_d1 :
  column_names d1 = column_names d ++ ((λ c, c +:+ "_r") <$> higher).
Proof. apply column_names_add_ranks. Qed.

Lemma NoDup_rank_names cs : NoDup cs → NoDup ((λ c, c +:+ "_r") <$> cs).
Proof.
  intros Hnd. apply NoDup_fmap_2_strong; [|done].
  intros x y _ _. apply string_app_inj_r.
Qed.

Lemma NoDup_column_names_d1 : NoDup (column_names d1).
Proof.
  rewrite column_names_d1. apply NoDup_app. split_and!.
  - apply (rk_cols _ _ _ Hrk).
  - intros x Hx (c & -> & Hc)%list_elem_of_fmap.
    destruct (shown_fresh false c Hc) as [Hf _]. by apply Hf.
  - apply NoDup_rank_names, NoDup_show_cols_of, (rk_names _ _ _ Hrk).
Qed.

Lemma wf_d1 : wf_frame d1.
Proof.
  apply wf_add_ranks; [apply (rk_wf _ _ _ Hrk)|apply (rk_cols _ _ _ Hrk)| |].
  - apply shown_has_rows.
  - apply shown_column.
Qed.

Lemma lower_after_higher :
  show_cols_of true self (column_names d1) = lower.
Proof.
  unfold lower, show_cols_of. f_equal. apply filter_ext_in.
  intros m Hm. rewrite column_names_d1, elem_of_app.
  split; [|naive_solver]. intros [Hb [Hin|Hin]]; [done|].
  apply list_elem_of_fmap in Hin as (c & Heq & Hc).
  destruct (shown_fresh false c Hc) as [_ Hf]. exfalso. apply Hf.
  rewrite <-Heq. by apply list_elem_of_fmap_2.
Qed.

Lemma lower_fresh c : c ∈ lower → c +:+ "_r" ∉ column_names d1.
Proof.
  intros Hc. rewrite column_names_d1, elem_of_app.
  intros [Hin|(c' & Heq & Hc')%list_elem_of_fmap].
  - destruct (shown_fresh true c Hc) as [Hf _]. by apply Hf.
  - apply string_app_inj_r in Heq. subst c'.
    apply elem_of_show_cols_of in Hc as (m & Hm & Hn & Hb & _).
    apply elem_of_show_cols_of in Hc' as (m' & Hm' & Hn' & Hb' & _).
    assert (m = m').
    { eapply NoDup_fmap_inj_in;
        [apply (rk_names _ _ _ Hrk)|done..|congruence]. }
    congruence.
Qed.

Lemma output_cols_present :
  Forall (λ n, n ∈ column_names (ranked_frame self d)) (output_cols self d score_cols).
Proof.
  unfold ranked_frame. fold higher lower d1.
  rewrite column_names_add_ranks, column_names_d1.
  unfold output_cols. rewrite !Forall_app. split_and!.
  - apply Forall_forall. intros n Hn%(rk_score_cols _ _ _ Hrk). set_solver.
  - unfold show_cols. fold higher lower. apply Forall_forall.
    intros n (c & Hn & Hc)%list_elem_of_bind.
    case_decide as Hin; [|by apply elem_of_nil in Hn].
    assert (c ∈ column_names d) as Hcol.
    { apply elem_of_app in Hin as [Hin|Hin];
        apply elem_of_show_cols_of in Hin; naive_solver. }
    apply elem_of_cons in Hn as [->|Hn]; [set_solver|].
    apply list_elem_of_singleton in Hn as ->.
    rewrite !elem_of_app, !list_elem_of_fmap.
    apply elem_of_app in Hin as [Hin|Hin]; [left; right|right]; by exists c.
  - apply Forall_forall. intros n [_ Hn]%list_elem_of_filter. set_solver.
Qed.

Lemma rank_explainers_run l s :
  heap s !! l = Some d →
  ∃ out,
    getitem_list (ranked_frame self d) (output_cols self d score_cols) = Some out
    ∧ _rank_explainers self l score_cols s
      = (Ok (length (heap s)),
         {| heap := <[l := ranked_frame self d]> (heap s) ++ [out];
            calls := calls s |}).
Proof.
  intros Hl.
  assert (l < length (heap s))%nat as Hlt by by eapply lookup_lt_Some.
  destruct (getitem_list (ranked_frame self d) (output_cols self d score_cols))
    as [out|] eqn:Hout; cycle 1.
  { unfold getitem_list in Hout.
    by rewrite decide_True in Hout by apply output_cols_present. }
  exists out. split; [done|].
  rewrite rank_explainers_unfold.
  rewrite bind_run, (read_run l d) by done. cbv beta iota zeta.
  fold higher. rewrite bind_run.
  rewrite (rank_loop_run false l higher d); [|done|..].
  2: apply (rk_wf _ _ _ Hrk). 2: apply (rk_cols _ _ _ Hrk).
  2: apply NoDup_show_cols_of, (rk_names _ _ _ Hrk).
  2: apply shown_has_rows. 2: apply shown_column.
  2: intros c Hc; by destruct (shown_fresh false c Hc).
  cbv beta iota. fold d1.
  rewrite bind_run, (read_run l d1)
    by (cbn [heap]; by apply list_lookup_insert_eq).
  cbv beta iota. rewrite lower_after_higher. rewrite bind_run.
  rewrite (rank_loop_run true l lower d1).
  2: cbn [heap]; by apply list_lookup_insert_eq.
  2: apply wf_d1. 2: apply NoDup_column_names_d1.
  2: apply NoDup_show_cols_of, (rk_names _ _ _ Hrk).
  2: apply shown_has_rows.
  2: { intros c Hc. rewrite column_names_d1. apply elem_of_app. left.
       by apply (shown_column true). }
  2: apply lower_fresh.
  cbv beta iota. cbn [heap calls].
  rewrite list_insert_insert_eq.
  change (add_ranks true d1 lower) with (ranked_frame self d).
  rewrite bind_run, (read_run l (ranked_frame self d))
    by (cbn [heap]; by apply list_lookup_insert_eq).
  cbv beta iota.
  change (score_cols ++ _ ++ _) with (output_cols self d score_cols).
  rewrite bind_run, Hout, lift_run. cbv beta iota.
  rewrite alloc_run. cbn [heap calls]. by rewrite length_insert.
Qed.
End run.
End ranker.

Lemma column_cells_add_ranks ascending d cs c :
  (∀ c', c' ∈ cs → c' +:+ "_r" ≠ c) →
  column_cells (add_ranks ascending d cs) c = column_cells d c.
Proof.
  intros Hne. unfold column_cells, getitem, add_ranks. simpl.
  rewrite filter_app, (filter_key_absent (_ <$> cs)); [by rewrite app_nil_r|].
  rewrite <-list_fmap_compose. intros (c' & Heq & Hc')%list_elem_of_fmap.
  simpl in Heq. by eapply Hne.
Qed.

Lemma getitem_list_Some d ns out :
  getitem_list d ns = Some out →
  index out = index d
  ∧ columns out = (n ← ns; filter (λ col, col.1 = n) (columns d)).
Proof. unfold getitem_list. case_decide; [|done]. by intros [= <-]. Qed.

(** The rank column of a metric with a sort direction, in the table the
    ranker returns. *)
Lemma rank_column_placed self d score_cols l s m col b :
  heap s !! l = Some d → rankable self d score_cols →
  m ∈ evaluation_measures self → BEST_SORTING_ASCENDING m = Some b →
  (SHORT_NAME m, col) ∈ columns d →
  ∃ l' out,
    (_rank_explainers self l score_cols s).1 = Ok l'
    ∧ heap (_rank_explainers self l score_cols s).2 !! l' = Some out
    ∧ index out = index d
    ∧ index d ≠ []
    ∧ (SHORT_NAME m, col) ∈ columns out
    ∧ (SHORT_NAME m +:+ "_r", ranks_of b d (SHORT_NAME m)) ∈ columns out.
Proof.
  intros Hl Hrk Hm Hb Hcol.
  destruct (rank_explainers_run self d score_cols Hrk l s Hl) as (out & Hout & Hrun).
  apply getitem_list_Some in Hout as [Hidx Hcols].
  assert (SHORT_NAME m ∈ column_names d) as Hname.
  { apply list_elem_of_fmap. by exists (SHORT_NAME m, col). }
  assert (index d ≠ []) as Hrows.
  { intros Hnil. by eapply (rk_rows _ _ _ Hrk). }
  assert (SHORT_NAME m ∈ show_cols_of b self (column_names d)) as Hshown.
  { apply elem_of_show_cols_of. by exists m. }
  exists (length (heap s)), out. rewrite Hrun. cbn [fst snd heap].
  assert (∀ x, x ∈ [SHORT_NAME m; SHORT_NAME m +:+ "_r"] →
               x ∈ output_cols self d score_cols) as Hplaced.
  { intros x Hx. unfold output_cols. rewrite !elem_of_app. right; left.
    unfold show_cols. apply list_elem_of_bind. exists (SHORT_NAME m).
    split; [|by apply list_elem_of_fmap_2].
    rewrite decide_True; [done|]. rewrite elem_of_app.
    destruct b; [by right|by left]. }
  split_and!; [done| |done|done| |].
  - rewrite lookup_app_r by (by rewrite length_insert).
    by rewrite length_insert, Nat.sub_diag.
  - rewrite Hcols. apply select_columns_elem; [apply Hplaced; set_solver|].
    unfold ranked_frame, add_ranks. simpl. set_solver.
  - rewrite Hcols. apply select_columns_elem; [apply Hplaced; set_solver|].
    unfold ranked_frame.
    destruct b.
    + unfold add_ranks at 1. cbn [columns]. apply elem_of_app. right.
      apply list_elem_of_fmap. exists (SHORT_NAME m). split; [|done].
      f_equal. unfold ranks_of. cbn [index add_ranks].
      rewrite column_cells_add_ranks; [done|].
      intros c' Hc' Heq.
      destruct (shown_fresh self d score_cols Hrk false c' Hc') as [_ Hf].
      apply Hf. rewrite Heq. by apply list_elem_of_fmap_2.
    + unfold add_ranks. cbn [columns]. rewrite !elem_of_app. left; right.
      apply list_elem_of_fmap. by exists (SHORT_NAME m).
Qed.

(** ... for a score column without missing values. *)
Lemma rank_column_in_output self d score_cols l s m col b :
  heap s !! l = Some d → rankable self d score_cols →
  m ∈ evaluation_measures self → BEST_SORTING_ASCENDING m = Some b →
  (SHORT_NAME m, col) ∈ columns d → Forall (λ x, x ≠ NaN) col →
  ∃ l' out qs rs,
    (_rank_explainers self l score_cols s).1 = Ok l'
    ∧ heap (_rank_explainers self l score_cols s).2 !! l' = Some out
    ∧ index out = index d
    ∧ mapM cell_value col = Some qs
    ∧ length qs = length (index d)
    ∧ Rank.rank_column b (Z.of_nat (length qs)) qs = Some rs
    ∧ (SHORT_NAME m, col) ∈ columns out
    ∧ (SHORT_NAME m +:+ "_r", Int <$> rs) ∈ columns out.
Proof.
  intros Hl Hrk Hm Hb Hcol Hnum.
  destruct (rank_column_placed self d score_cols l s m col b)
    as (l' & out & Hok & Hheap & Hidx & Hrows & Hsc & Hin); try done.
  destruct (ranks_of_spec b d (SHORT_NAME m) col)
    as (qs & rs & Hqs & Hlenqs & Hrs & Hlenrs & Hranks);
    [apply (rk_wf _ _ _ Hrk)|apply (rk_cols _ _ _ Hrk)|done..|].
  exists l', out, qs, rs. rewrite <-Hranks. by split_and!.
Qed.




(** ** The score table is complete *)

Lemma dict_get_store_score es name label v k :
  dict_get (store_score es name label v) k
  = if decide (name = k)
    then Some (dict_set (default [] (dict_get es name)) label v)
    else dict_get es k.
Proof.
  unfold store_score. rewrite dict_get_set.
  destruct (decide (name = k)) as [->|Hne].
  - f_equal. f_equal. destruct (decide (k ∈ es.*1)) as [Hin|Hin]; [done|].
    rewrite dict_get_set, decide_True by done.
    destruct (dict_get es k) eqn:Hget; [|done].
    exfalso. apply Hin, dict_get_is_Some. by eexists.
  - destruct (decide (name ∈ es.*1)); [done|].
    by rewrite dict_get_set, decide_False.
Qed.

Lemma elem_of_dict_set_keys {V} (d : list (string * V)) k v x :
  x ∈ (dict_set d k v).*1 ↔ x ∈ d.*1 ∨ x = k.
Proof. rewrite dict_set_keys. case_decide; set_solver. Qed.

Lemma inner_keys_store_score es name label v k x :
  x ∈ inner_keys (store_score es name label v) k
  ↔ x ∈ inner_keys es k ∨ (x = label ∧ k = name).
Proof.
  unfold inner_keys. rewrite dict_get_store_score.
  destruct (decide (name = k)) as [->|Hne]; [|naive_solver].
  simpl. rewrite elem_of_dict_set_keys.
  destruct (dict_get es k); simpl; naive_solver.
Qed.

Lemma inner_keys_record_scores ms text v r t args label es k x :
  x ∈ inner_keys (record_scores ms text v r t args label es) k
  ↔ x ∈ inner_keys es k ∨ (x = label ∧ k ∈ SHORT_NAME <$> ms).
Proof.
  unfold record_scores. revert es.
  induction ms as [|m ms IH]; intros es.
  { simpl. rewrite elem_of_nil. tauto. }
  cbn [foldl]. rewrite IH, inner_keys_store_score, fmap_cons, elem_of_cons.
  naive_solver.
Qed.

Lemma inner_keys_row_scores self text df r target args es label k x :
  x ∈ inner_keys (row_scores self text df r target args es label) k
  ↔ x ∈ inner_keys es k ∨ (x = label ∧ k ∈ SHORT_NAME <$> metrics_used self r).
Proof.
  unfold row_scores, metrics_used.
  rewrite !inner_keys_record_scores, !fmap_app, !elem_of_app. naive_solver.
Qed.

Lemma inner_keys_rows self text df r target args rows es k x :
  x ∈ inner_keys (foldl (row_scores self text df r target args) es rows) k
  ↔ x ∈ inner_keys es k
    ∨ (x ∈ rows ∧ k ∈ SHORT_NAME <$> metrics_used self r).
Proof.
  revert es. induction rows as [|label rows IH]; intros es.
  { simpl. rewrite elem_of_nil. tauto. }
  cbn [foldl]. rewrite IH, inner_keys_row_scores, elem_of_cons. naive_solver.
Qed.

Lemma metrics_used_sublist self r :
  metrics_used self r `sublist_of` evaluation_measures self.
Proof.
  unfold metrics_used, evaluation_measures.
  apply sublist_app; [done|]. apply sublist_app; [|done].
  destruct r; [done|apply sublist_nil_l].
Qed.

Lemma NoDup_scored_names self df r :
  NoDup (SHORT_NAME <$> evaluation_measures self) →
  NoDup (scored_names self df r).
Proof.
  intros Hnames. unfold scored_names. destruct (index df); [constructor|].
  eapply sublist_NoDup; [done|]. apply fmap_sublist, metrics_used_sublist.
Qed.

Lemma scored_names_measures self df r k :
  k ∈ scored_names self df r → k ∈ SHORT_NAME <$> evaluation_measures self.
Proof.
  unfold scored_names. destruct (index df); [by intros ?%elem_of_nil|].
  intros Hk. eapply elem_of_sublist; [done|].
  apply fmap_sublist, metrics_used_sublist.
Qed.

Section score_table.
Context (self : ExplanationEvalutator) (text : string) (df : DataFrame).
Context (r : option Rationale) (target : Z) (args : kwargs).
Context (Hnames : NoDup (SHORT_NAME <$> evaluation_measures self)).

Let es := foldl (row_scores self text df r target args) [] (index df).

Lemma score_table_keys : es.*1 = scored_names self df r.
Proof.
  unfold es, scored_names. rewrite rows_scores_keys.
  destruct (index df); [done|].
  rewrite union_labels_disjoint; [done|]. simpl.
  eapply sublist_NoDup; [done|]. apply fmap_sublist, metrics_used_sublist.
Qed.

Lemma score_table_entry k inner label :
  (k, inner) ∈ es → label ∈ inner.*1 ↔ label ∈ index df.
Proof.
  intros Hin.
  assert (k ∈ es.*1) as Hk by (apply list_elem_of_fmap; by exists (k, inner)).
  assert (dict_get es k = Some inner) as Hget.
  { pose proof (NoDup_scored_names self df r Hnames) as Hnd.
    rewrite <-score_table_keys in Hnd.
    clear -Hin Hnd. induction es as [|[k' v'] l IH]; [by apply elem_of_nil in Hin|].
    rewrite fmap_cons in Hnd. apply NoDup_cons in Hnd as [Hk' Hnd].
    simpl. apply elem_of_cons in Hin as [[= <- <-]|Hin].
    - by rewrite decide_True.
    - rewrite decide_False; [by apply IH|]. intros ->. apply Hk'.
      apply list_elem_of_fmap. by exists (k, inner). }
  pose proof (inner_keys_rows self text df r target args (index df) [] k label)
    as Hrows.
  fold es in Hrows. unfold inner_keys at 1 in Hrows. rewrite Hget in Hrows.
  simpl in Hrows. rewrite Hrows. unfold inner_keys. simpl.
  rewrite score_table_keys in Hk. unfold scored_names in Hk.
  destruct (index df) eqn:Hidx; [by apply elem_of_nil in Hk|].
  rewrite elem_of_nil. tauto.
Qed.
End score_table.

(** ** Merging the score table into the working copy *)

Lemma elem_of_score_index (es : score_table) acc label :
  label ∈ foldl (λ acc kv, union_labels acc (kv.2).*1) acc es
  ↔ label ∈ acc ∨ ∃ kv, kv ∈ es ∧ label ∈ (kv.2).*1.
Proof.
  revert acc. induction es as [|kv es IH]; intros acc.
  { simpl. split; [by left|]. intros [?|(?&?%elem_of_nil&_)]; done. }
  cbn [foldl]. rewrite IH, elem_of_union_labels.
  setoid_rewrite elem_of_cons. naive_solver.
Qed.

Lemma NoDup_score_index (es : score_table) acc :
  NoDup acc → NoDup (foldl (λ acc kv, union_labels acc (kv.2).*1) acc es).
Proof.
  revert acc. induction es as [|kv es IH]; intros acc Hnd; [done|].
  cbn [foldl]. by apply IH, NoDup_union_labels.
Qed.

Lemma positions_head idx label i :
  head (positions idx label) = Some i → idx !! i = Some label.
Proof.
  unfold positions. intros Hhead.
  assert (i ∈ filter (λ i, idx !! i = Some label) (seq 0 (length idx))) as Hin.
  { destruct (filter _ _); simplify_eq/=. set_solver. }
  by apply list_elem_of_filter in Hin as [? _].
Qed.

Lemma reindex_eq d idx : index d = idx → reindex d idx = Some d.
Proof. intros H. unfold reindex. by rewrite decide_True. Qed.

Lemma dict_get_elem {V} (d : list (string * V)) k v :
  NoDup d.*1 → (k, v) ∈ d → dict_get d k = Some v.
Proof.
  induction d as [|[k' v'] d IH]; [by intros _ ?%elem_of_nil|].
  rewrite fmap_cons, NoDup_cons. cbn [fst]. intros [Hk' Hnd] Hin. simpl.
  apply elem_of_cons in Hin as [[= <- <-]|Hin].
  - by rewrite decide_True.
  - rewrite decide_False; [by apply IH|]. intros ->. apply Hk'.
    apply list_elem_of_fmap. by exists (k, v).
Qed.

Lemma dict_get_absent {V} (d : list (string * V)) k :
  k ∉ d.*1 → dict_get d k = None.
Proof.
  intros Hk. destruct (dict_get d k) eqn:Hget; [|done].
  exfalso. apply Hk, dict_get_is_Some. by eexists.
Qed.

Lemma NoDup_rows_scores_keys self text df r target args rows :
  NoDup (foldl (row_scores self text df r target args) [] rows).*1.
Proof.
  rewrite rows_scores_keys. destruct rows; [constructor|].
  apply NoDup_union_labels. constructor.
Qed.

Lemma rows_scores_inner_keys self text df r target args rows kv label :
  kv ∈ foldl (row_scores self text df r target args) [] rows →
  label ∈ kv.2.*1 → label ∈ rows.
Proof.
  intros Hkv Hlabel. destruct kv as [k inner].
  pose proof (inner_keys_rows self text df r target args rows [] k label) as H.
  unfold inner_keys at 1 in H.
  rewrite (dict_get_elem _ k inner) in H
    by (done || apply NoDup_rows_scores_keys).
  simpl in H. apply H in Hlabel as [?%elem_of_nil|[? _]]; done.
Qed.

Lemma union_labels_nil l : NoDup l → union_labels [] l = l.
Proof. intros Hnd. by rewrite union_labels_disjoint. Qed.

(** Merging a score table into a frame with distinct row labels that has
    every label of the table. *)
Lemma concat_score_columns a (es : score_table) :
  NoDup (index a) →
  (∀ kv label, kv ∈ es → label ∈ kv.2.*1 → label ∈ index a) →
  concat a (frame_of_scores es)
  = Some {| index := index a;
            columns := columns a ++ score_columns (index a) es |}.
Proof.
  intros Hnd Hsub. unfold concat.
  assert (∀ label, label ∈ index (frame_of_scores es) →
            ∃ kv, kv ∈ es ∧ label ∈ kv.2.*1) as Hidx.
  { intros label. unfold frame_of_scores. cbn [index].
    rewrite elem_of_score_index, elem_of_nil. by intros [[]|?]. }
  destruct (decide (index a = index (frame_of_scores es))) as [Heq|Hne].
  { do 3 f_equal. unfold score_columns. by rewrite Heq. }
  assert (union_labels [] (index a ++ index (frame_of_scores es)) = index a)
    as ->.
  { rewrite union_labels_app, union_labels_nil by done.
    apply union_labels_subseteq. intros label (kv & Hkv & Hl)%Hidx.
    by eapply Hsub. }
  rewrite (reindex_eq a) by done. cbn [mbind option_bind].
  unfold reindex. rewrite decide_False by done.
  rewrite decide_True by (apply NoDup_score_index; constructor).
  cbn [mbind option_bind columns]. do 3 f_equal.
  unfold score_columns, frame_of_scores. cbn [columns index].
  rewrite <-list_fmap_compose. apply list_fmap_ext.
  intros i kv Hkv%list_elem_of_lookup_2. cbn [compose fst snd]. f_equal.
  apply list_fmap_ext. intros j label _.
  change (foldl _ [] es) with (index (frame_of_scores es)).
  destruct (decide (label ∈ index (frame_of_scores es))) as [Hin|Hin].
  - apply positions_nonempty in Hin.
    destruct (head (positions (index (frame_of_scores es)) label))
      as [p|] eqn:Hhead; [|by destruct (positions _ _)].
    apply positions_head in Hhead. cbn [mbind option_bind].
    by rewrite list_lookup_fmap, Hhead.
  - assert (positions (index (frame_of_scores es)) label = []) as ->.
    { apply elem_of_nil_inv. intros p Hp. apply Hin.
      unfold positions in Hp. apply list_elem_of_filter in Hp as [Hp _].
      by eapply list_elem_of_lookup_2. }
    cbn [head mbind option_bind default].
    rewrite dict_get_absent; [done|]. intros Hl. apply Hin.
    unfold frame_of_scores. cbn [index]. apply elem_of_score_index.
    right. by exists kv.
Qed.

Section merge.
Context (self : ExplanationEvalutator) (text : string) (df : DataFrame).
Context (r : option Rationale) (target : Z) (args : kwargs).
Context (Hnames : NoDup (SHORT_NAME <$> evaluation_measures self)).
Context (Hlabels : NoDup (index df)).

Let es := foldl (row_scores self text df r target args) [] (index df).

Lemma score_cell kv label :
  kv ∈ es → label ∈ index df →
  ∃ q, from_option Float NaN (dict_get kv.2 label) = Float q.
Proof.
  intros Hkv Hlabel. destruct kv as [k inner]. cbn [snd].
  assert (is_Some (dict_get inner label)) as [q ->].
  { apply dict_get_is_Some.
    by apply (score_table_entry self text df r target args Hnames k inner). }
  by exists q.
Qed.

End merge.

(** ** The table returned by [evaluate_explainers] *)

Lemma wf_renamed df : wf_frame df → wf_frame (renamed df).
Proof.
  unfold wf_frame, renamed. cbn [index columns]. rewrite !Forall_forall.
  intros Hwf [n c] Hin. cbn [snd].
  apply elem_of_zip_r in Hin. apply list_elem_of_fmap in Hin as ([n' c'] & -> & Hin).
  by apply (Hwf (n', c')).
Qed.


Section final_table.
Context (self : ExplanationEvalutator) (text : string) (df : DataFrame).
Context (r : option Rationale) (target : Z) (args : kwargs).
Context (Hwf : wf_frame df).
Context (Hnamed : well_named self (text_tokens_of (column_names df))).
Let tokens := text_tokens_of (column_names df).
Let es := foldl (row_scores self text df r target args) [] (index df).

Lemma measures_NoDup : NoDup (SHORT_NAME <$> evaluation_measures self).
Proof. destruct Hnamed as [Hnd _]. by apply NoDup_app in Hnd as (_ & _ & ?). Qed.

Lemma measure_not_token m :
  m ∈ evaluation_measures self → SHORT_NAME m ∉ tokens.
Proof.
  intros Hm Hin. destruct Hnamed as [Hnd _].
  apply NoDup_app in Hnd as (_ & Hdisj & _).
  eapply Hdisj; [done|]. by apply list_elem_of_fmap_2.
Qed.

Lemma merged_rankable merged score_cols :
  index merged = index df →
  columns merged = columns (renamed df) ++ score_cols →
  score_cols.*1 = scored_names self df r →
  Forall (λ c, length c.2 = length (index df)
               ∧ Forall (λ x, x ≠ NaN) c.2) score_cols →
  rankable self merged tokens.
Proof.
  intros Hidx Hcols Hkeys Hcells.
  assert (column_names merged = tokens ++ scored_names self df r) as Hcn.
  { unfold column_names. rewrite Hcols, fmap_app, Hkeys. f_equal.
    apply (column_names_renamed df). }
  assert (∀ k, k ∈ scored_names self df r →
               k ∈ SHORT_NAME <$> evaluation_measures self) as Hsub.
  { apply scored_names_measures. }
  destruct Hnamed as [Hnd Hfresh]. split.
  - unfold wf_frame. rewrite Hcols, Hidx. apply Forall_app. split.
    + apply (wf_renamed df Hwf).
    + eapply Forall_impl; [done|]. by intros c [? _].
  - rewrite Hcn. apply NoDup_app in Hnd as (Htok & Hdisj & Hms).
    apply NoDup_app. split_and!; [done| |].
    + intros x Hx Hx'. eapply Hdisj; [done|]. by apply Hsub.
    + apply NoDup_scored_names, measures_NoDup.
  - apply measures_NoDup.
  - intros m Hm. rewrite Hcn. intros Hin. apply (Hfresh m Hm).
    rewrite !elem_of_app in Hin |- *.
    destruct Hin as [Hin|?]; [|by right].
    apply elem_of_app in Hin as [?|Hs]; [by left|]. right. by apply Hsub.
  - intros Hnil m Hm. rewrite Hcn. unfold scored_names.
    rewrite <-Hidx, Hnil, app_nil_r. by apply measure_not_token.
  - rewrite Hcn. set_solver.
Qed.


Context (Hlabels : NoDup (index df)).

End final_table.


(** * Further properties of the constructor and the aligner *)

(** X1: what the explicit branch of the constructor does with any list of
    supplied objects: it raises [ValueError] when one of them is an
    instance of [BaseEvaluator], and otherwise returns an evaluator whose
    three buckets are the supplied objects split by [TYPE_METRIC], each in
    the supplied order; every tag other than "faithfulness" and
    "plausibility" lands in [other_measures].  The keyword arguments play
    no part. *)
Theorem init_explicit_outcome lib model tok ms kw :
  __init__ lib model tok (Some ms) kw =
    if decide (Exists (λ m, is_BaseEvaluator m = true) ms)
    then Raise ValueError
    else Ok {| modelw := ModelW model; tokenizer := tok;
               faithfulness_metrics :=
                 filter (λ m, TYPE_METRIC m = "faithfulness") ms;
               plausibility_metrics :=
                 filter (λ m, TYPE_METRIC m = "plausibility") ms;
               other_measures :=
                 filter (λ m, TYPE_METRIC m ≠ "faithfulness"
                              ∧ TYPE_METRIC m ≠ "plausibility") ms |}.
Proof.
  unfold __init__. case_decide as Hex.
  - by apply register_metrics_raises.
  - apply not_Exists_Forall in Hex; [|apply _].
    rewrite register_metrics_ok; [done|].
    eapply Forall_impl; [done|]. simpl. intros m.
    by destruct (is_BaseEvaluator m).
Qed.

Lemma fst_zip_take {A B} (l : list A) (k : list B) :
  (zip l k).*1 = take (length k) l.
Proof.
  revert k. induction l as [|x l IH]; intros [|y k]; simpl; try done.
  by rewrite IH.
Qed.

(** X2: the effects of the aligner.  It calls [tokenizer.encode] exactly
    once for each word that has a flag, in word order, never for a word
    beyond the end of the rationale, and it touches no frame. *)
Theorem aligner_encodes_each_flagged_word_once self words rationale s :
  (get_true_rational_tokens self words rationale s).2
  = {| heap := heap s;
       calls := calls s ++ (EvEncode <$> take (length rationale) words) |}.
Proof. by rewrite aligner_run, fst_zip_take. Qed.

(** X3: the aligner works word by word: aligning two sentences one after
    the other gives the alignment of the first followed by the alignment
    of the second, provided the first has one flag per word. *)
Theorem aligner_concatenates self w1 r1 w2 r2 s :
  length w1 = length r1 →
  ∃ a1 a2,
    (get_true_rational_tokens self w1 r1 s).1 = Ok a1
    ∧ (get_true_rational_tokens self w2 r2 s).1 = Ok a2
    ∧ (get_true_rational_tokens self (w1 ++ w2) (r1 ++ r2) s).1
      = Ok (a1 ++ a2).
Proof.
  intros Hlen. rewrite !aligner_run. eexists _, _. split_and!; [done..|].
  cbn [fst]. f_equal. unfold expected_alignment.
  by rewrite zip_with_app, join_app.
Qed.

(** X4: with a tokenizer that gives every word of the sentence exactly one
    token between the two special tokens, the aligner returns the
    rationale itself, cut to the number of words. *)
Theorem aligner_identity_on_single_tokens self words rationale s :
  Forall (λ w, length (encode (tokenizer self) w) = 3%nat) words →
  (get_true_rational_tokens self words rationale s).1
  = Ok (take (length words) rationale).
Proof.
  intros Hone. rewrite aligner_run. cbn [fst]. f_equal.
  unfold expected_alignment. revert rationale.
  induction Hone as [|w words Hw _ IH]; intros [|r rationale]; try done.
  cbn [zip_with mjoin list_join length take]. rewrite IH.
  unfold token_count, slice_1_m1.
  rewrite length_drop, length_take, Hw. done.
Qed.

(** X5: the aligner invents no flag: whatever holds of every flag of the
    rationale (being 0 or 1, say) holds of every flag it returns. *)
Theorem aligner_keeps_flag_values (P : Z → Prop) self words rationale s :
  Forall P rationale →
  ∃ out,
    (get_true_rational_tokens self words rationale s).1 = Ok out
    ∧ Forall P out.
Proof.
  intros HP. rewrite aligner_run. eexists. split; [done|].
  unfold expected_alignment. revert words.
  induction HP as [|r rationale Hr _ IH]; intros [|w words]; simpl;
    try by constructor.
  apply Forall_app. split; [|apply IH].
  apply Forall_forall. by intros x [-> _]%elem_of_replicate.
Qed.

(** * Further properties of the evaluation *)

(** ** Entries of the score table *)

Lemma score_entry_store_score es n l v n' l' :
  score_entry (store_score es n l v) n' l'
  = if decide (n = n' ∧ l = l') then Some v else score_entry es n' l'.
Proof.
  unfold score_entry. rewrite dict_get_store_score.
  destruct (decide (n = n')) as [->|Hn].
  - cbn [mbind option_bind]. rewrite dict_get_set.
    destruct (decide (l = l')) as [->|Hl].
    + by rewrite decide_True.
    + rewrite decide_False by tauto. by destruct (dict_get es n').
  - by rewrite decide_False by tauto.
Qed.

Lemma row_scores_plan self text df r target args es label :
  row_scores self text df r target args es label
  = record_plan (call_plan self r target) text
      (default (Vec []) (loc_values df label)) args label es.
Proof.
  unfold row_scores, record_plan, call_plan, record_scores.
  rewrite !foldl_app, !foldl_fmap. done.
Qed.

Lemma score_entry_record_plan_other plan text v args label es n l' :
  l' ≠ label →
  score_entry (record_plan plan text v args label es) n l' = score_entry es n l'.
Proof.
  intros Hne. unfold record_plan. revert es.
  induction plan as [|c plan IH]; intros es; [done|].
  cbn [foldl]. rewrite IH, score_entry_store_score.
  by rewrite decide_False by (intros [_ ->]; done).
Qed.

Lemma score_entry_record_plan_absent plan text v args label es n :
  n ∉ (λ c : planned_call, SHORT_NAME c.1.1) <$> plan →
  score_entry (record_plan plan text v args label es) n label
  = score_entry es n label.
Proof.
  unfold record_plan. revert es.
  induction plan as [|c plan IH]; intros es Hn; [done|].
  rewrite fmap_cons, not_elem_of_cons in Hn. destruct Hn as [Hc Hn].
  cbn [foldl]. rewrite IH, score_entry_store_score by done.
  by rewrite decide_False by (intros [? _]; congruence).
Qed.

Lemma record_plan_app before after text v args label es :
  record_plan (before ++ after) text v args label es
  = record_plan after text v args label
      (record_plan before text v args label es).
Proof. unfold record_plan. by rewrite foldl_app. Qed.

Lemma record_plan_cons c plan text v args label es :
  record_plan (c :: plan) text v args label es
  = record_plan plan text v args label
      (store_score es (SHORT_NAME c.1.1) label
         (evaluate_explanation c.1.1 text v c.1.2 c.2 args)).
Proof. reflexivity. Qed.

Lemma score_entry_record_plan_last before c after text v args label es :
  SHORT_NAME c.1.1 ∉ (λ c : planned_call, SHORT_NAME c.1.1) <$> after →
  score_entry (record_plan (before ++ c :: after) text v args label es)
    (SHORT_NAME c.1.1) label
  = Some (evaluate_explanation c.1.1 text v c.1.2 c.2 args).
Proof.
  intros Hafter. rewrite record_plan_app, record_plan_cons.
  rewrite score_entry_record_plan_absent, score_entry_store_score by done.
  by rewrite decide_True.
Qed.

Lemma score_entry_rows_other self text df r target args rows es n label :
  label ∉ rows →
  score_entry (foldl (row_scores self text df r target args) es rows) n label
  = score_entry es n label.
Proof.
  revert es. induction rows as [|l' rows IH]; intros es Hl; [done|].
  apply not_elem_of_cons in Hl as [Hne Hl].
  cbn [foldl]. rewrite IH, row_scores_plan by done.
  by apply score_entry_record_plan_other.
Qed.

Lemma score_entry_rows self text df r target args rows before c after label :
  call_plan self r target = before ++ c :: after →
  SHORT_NAME c.1.1 ∉ (λ c : planned_call, SHORT_NAME c.1.1) <$> after →
  label ∈ rows →
  score_entry (foldl (row_scores self text df r target args) [] rows)
    (SHORT_NAME c.1.1) label
  = Some (evaluate_explanation c.1.1 text
            (default (Vec []) (loc_values df label)) c.1.2 c.2 args).
Proof.
  intros Hplan Hafter (rows1 & rows2 & -> & Hlast)%list_elem_of_split_r.
  rewrite foldl_app. cbn [foldl].
  rewrite score_entry_rows_other, row_scores_plan, Hplan by done.
  by apply score_entry_record_plan_last.
Qed.

Lemma evaluate_explainers_unranked_run self text l df r style target args s :
  heap s !! l = Some df → NoDup (index df) →
  evaluate_explainers self text l r false style target args s
  = (Ok (S (length (heap s)),
         if style then Some (StylerOf (S (length (heap s)))) else None),
     {| heap := heap s ++ [renamed df;
                           unranked_table self text df r target args];
        calls := calls s
          ++ (label ← index df; row_calls self text df r target args label) |}).
Proof.
  intros Hl Hlabels. unfold evaluate_explainers.
  rewrite bind_run, (working_copy_run l df) by done. cbv beta iota zeta.
  cbn [fst snd].
  rewrite bind_run, (evaluate_rows_run _ _ _ df)
    by (by apply lookup_app_l_Some). cbv beta iota.
  rewrite bind_run. erewrite read_run; cycle 1.
  { cbn [heap]. by rewrite list_lookup_middle. }
  cbv beta iota.
  rewrite (concat_score_columns (renamed df)); [|done|]; cycle 1.
  { intros kv label Hkv Hlabel. cbn [renamed index].
    by eapply rows_scores_inner_keys. }
  rewrite bind_run, lift_run. cbv beta iota.
  rewrite bind_run, alloc_run. cbv beta iota. cbn [heap calls].
  rewrite length_app. cbn [length]. rewrite Nat.add_1_r.
  rewrite bind_run, ret_run. cbv beta iota.
  rewrite <-app_assoc. cbn [app].
  change {| index := index (renamed df); columns := _ |}
    with (unranked_table self text df r target args).
  set (s3 := {| heap := _; calls := _ |}).
  assert (heap s3 !! S (length (heap s))
          = Some (unranked_table self text df r target args)) as Hs3.
  { unfold s3. cbn [heap].
    rewrite lookup_app_r by lia.
    by replace (S (length (heap s)) - length (heap s))%nat with 1%nat by lia. }
  destruct style.
  - rewrite bind_run. unfold _style_result.
    rewrite !bind_run, (read_run _ _ _ Hs3). cbv beta iota.
    rewrite ret_run. cbv beta iota. rewrite ret_run. cbv beta iota.
    by rewrite ret_run.
  - rewrite bind_run, ret_run. cbv beta iota. by rewrite ret_run.
Qed.

Lemma positions_unique idx i label :
  NoDup idx → idx !! i = Some label → positions idx label = [i].
Proof.
  intros Hnd Hi. apply Permutation_singleton_r. apply NoDup_Permutation.
  - unfold positions. apply NoDup_filter, NoDup_seq.
  - apply NoDup_singleton.
  - intros j. unfold positions.
    rewrite list_elem_of_filter, elem_of_seq, list_elem_of_singleton. split.
    + intros [Hj _]. by eapply NoDup_lookup.
    + intros ->. split; [done|]. apply lookup_lt_Some in Hi. lia.
Qed.

Lemma loc_values_unique df i label :
  NoDup (index df) → index df !! i = Some label →
  loc_values df label = Some (Vec (row df i)).
Proof.
  intros Hnd Hi. unfold loc_values. by rewrite (positions_unique _ i).
Qed.

(** X6: without ranking, on a matrix with distinct explainer labels,
    [evaluate_explainers] returns a new table with the rows of the matrix
    whose columns are the token columns (disambiguated names, the cells of
    the matrix) followed by one score column per short name, in the order
    in which the short names are first evaluated (faithfulness,
    plausibility, other); there is no score column when the matrix has no
    row.  The styler, when asked for, is a view of the returned table. *)
Theorem unranked_table_columns self text l df r style target args s :
  heap s !! l = Some df → NoDup (index df) →
  ∃ l' out score_cols,
    (evaluate_explainers self text l r false style target args s).1
      = Ok (l', if style then Some (StylerOf l') else None)
    ∧ heap (evaluate_explainers self text l r false style target args s).2 !! l'
      = Some out
    ∧ index out = index df
    ∧ columns out
      = zip (text_tokens_of (column_names df)) (columns df).*2 ++ score_cols
    ∧ score_cols.*1
      = match index df with
        | [] => []
        | _ => union_labels [] (SHORT_NAME <$> metrics_used self r)
        end
    ∧ Forall (λ c, length c.2 = length (index df)) score_cols.
Proof.
  intros Hl Hlabels.
  rewrite (evaluate_explainers_unranked_run _ _ _ df) by done.
  cbn [fst snd heap].
  exists (S (length (heap s))), (unranked_table self text df r target args).
  eexists. split_and!; [done| |done|done| |].
  - rewrite lookup_app_r by lia.
    by replace (S (length (heap s)) - length (heap s))%nat with 1%nat by lia.
  - unfold score_columns. rewrite <-list_fmap_compose.
    rewrite <-(rows_scores_keys self text df r target args).
    by apply list_fmap_ext.
  - unfold score_columns. apply Forall_fmap, Forall_forall.
    intros kv _. simpl. by rewrite length_fmap.
Qed.

(** X7: the score cells hold what the metrics returned.  For a call of the
    per-row plan (a metric with the rationale and target it is given) that
    no later call of the plan shares its short name with, the score column
    of that name holds, at every row, the value the metric returned for
    that row's score vector.  When metrics share a short name, the column
    therefore holds the scores of the one evaluated last. *)
Theorem score_cell_holds_last_call self text l df r style target args s
    before m rat tg after :
  heap s !! l = Some df → NoDup (index df) →
  call_plan self r target = before ++ (m, rat, tg) :: after →
  SHORT_NAME m ∉ (λ c : planned_call, SHORT_NAME c.1.1) <$> after →
  ∃ l' sty out,
    (evaluate_explainers self text l r false style target args s).1
      = Ok (l', sty)
    ∧ heap (evaluate_explainers self text l r false style target args s).2 !! l'
      = Some out
    ∧ ∀ i label, index df !! i = Some label →
        ∃ col,
          (SHORT_NAME m, col) ∈ drop (length (columns df)) (columns out)
          ∧ col !! i
            = Some (Float (evaluate_explanation m text (Vec (row df i))
                             rat tg args)).
Proof.
  intros Hl Hnd Hplan Hafter. rewrite (evaluate_explainers_unranked_run _ _ _ df) by done.
  cbn [fst snd heap].
  exists (S (length (heap s))). eexists.
  exists (unranked_table self text df r target args).
  split_and!; [done| |].
  { rewrite lookup_app_r by lia.
    by replace (S (length (heap s)) - length (heap s))%nat with 1%nat by lia. }
  intros i label Hi.
  set (es := foldl (row_scores self text df r target args) [] (index df)).
  pose proof (score_entry_rows self text df r target args (index df)
                before (m, rat, tg) after label Hplan Hafter
                (list_elem_of_lookup_2 _ _ _ Hi)) as Hentry.
  fold es in Hentry. cbn [fst snd] in Hentry.
  rewrite (loc_values_unique df i) in Hentry by done. cbn [default] in Hentry.
  unfold score_entry in Hentry.
  destruct (dict_get es (SHORT_NAME m)) as [inner|] eqn:Hget; [|done].
  cbn [mbind option_bind] in Hentry.
  exists ((λ label, from_option Float NaN (dict_get inner label)) <$> index df).
  split.
  - unfold unranked_table. cbn [columns].
    rewrite drop_app_length'; cycle 1.
    { unfold renamed. cbn [columns]. rewrite length_zip, length_fmap.
      rewrite text_tokens_of_length. unfold column_names.
      rewrite length_fmap. lia. }
    unfold score_columns. apply list_elem_of_fmap. exists (SHORT_NAME m, inner).
    split; [done|]. fold es. clear -Hget.
    induction es as [|[k v] es IH]; [done|]. simpl in Hget.
    case_decide; simplify_eq; set_solver.
  - by rewrite list_lookup_fmap, Hi; simpl; rewrite Hentry.
Qed.








(** X9: with the default metrics ([evaluation_metrics=None]) the
    constructor succeeds and [evaluate_explainers] calls, for each row in
    order, comprehensiveness, sufficiency and tau-LOO (built with the
    [use_correlation] keyword, default true) with [target], and then, only
    if a rationale is given and [use_plausibility_metrics] is not false,
    AUPRC, token F1 and token IOU with the rationale. *)
Theorem default_metrics_calls lib model tok kw text l df r rank style target
    args s :
  heap s !! l = Some df →
  ∃ self,
    __init__ lib model tok None kw = Ok self
    ∧ calls (evaluate_explainers self text l r rank style target args s).2
      = calls s ++
        (label ← index df;
         let v := default (Vec []) (loc_values df label) in
         let mw := ModelW model in
         [EvEvaluate (AOPC_Comprehensiveness_Evaluation lib mw tok) text v
            None (Some target) args;
          EvEvaluate (AOPC_Sufficiency_Evaluation lib mw tok) text v
            None (Some target) args;
          EvEvaluate (TauLOO_Evaluation lib mw tok
                        (kwargs_get kw "use_correlation")) text v
            None (Some target) args]
         ++ match r with
            | Some rationale =>
                if kwargs_get kw "use_plausibility_metrics" then
                  [EvEvaluate (AUPRC_PlausibilityEvaluation lib mw tok) text v
                     (Some rationale) None args;
                   EvEvaluate (Tokenf1_PlausibilityEvaluation lib mw tok) text v
                     (Some rationale) None args;
                   EvEvaluate (TokenIOU_PlausibilityEvaluation lib mw tok) text v
                     (Some rationale) None args]
                else []
            | None => []
            end).
Proof.
  intros Hl. eexists. split; [reflexivity|].
  rewrite (evaluate_explainers_calls _ _ _ df) by done. f_equal.
  apply list_bind_ext_in. intros label _. unfold row_calls.
  cbn [faithfulness_metrics plausibility_metrics other_measures fmap list_fmap].
  rewrite app_nil_r. cbn [app]. do 3 f_equal.
  destruct r as [rationale|]; [|done]. cbn [plausibility_used plausibility_metrics].
  by destruct (kwargs_get kw "use_plausibility_metrics").
Qed.

(** X10: when no plausibility metric is registered, a rationale makes no
    difference: the call returns the same result, leaves the same frames
    and makes the same calls as without one. *)
Theorem rationale_ignored_without_plausibility_metrics self text l rationale
    rank style target args s :
  plausibility_metrics self = [] →
  evaluate_explainers self text l (Some rationale) rank style target args s
  = evaluate_explainers self text l None rank style target args s.
Proof.
  intros Hp. destruct self as [mw tk fm pm om]. simpl in Hp. subst pm.
  reflexivity.
Qed.

(** X20: the calls made by [evaluate_explainers] are, row after row in
    index order, the calls of the per-row plan: every faithfulness metric
    with [target] and no rationale, then (with a rationale) every
    plausibility metric with the rationale and no target, then every other
    metric with [target]; each call gets the text, the row's score vector
    and the forwarded keyword arguments. *)
Theorem calls_follow_the_plan self text l df r rank style target args s :
  heap s !! l = Some df →
  calls (evaluate_explainers self text l r rank style target args s).2
  = calls s ++
    (label ← index df;
     (λ c : planned_call,
        EvEvaluate c.1.1 text (default (Vec []) (loc_values df label))
          c.1.2 c.2 args) <$> call_plan self r target).
Proof.
  intros Hl. rewrite (evaluate_explainers_calls _ _ _ df) by done. f_equal.
  apply list_bind_ext_in. intros label _. unfold row_calls, call_plan.
  by rewrite !fmap_app, <-!list_fmap_compose.
Qed.

(** X21: a matrix whose column names are already distinct is copied as it
    is: lines 119-127 give the working copy the names and cells of the
    matrix, and the token names are its column names. *)
Theorem distinct_columns_are_kept l df s :
  heap s !! l = Some df → NoDup (column_names df) →
  working_copy l s
  = (Ok (length (heap s), column_names df),
     {| heap := heap s ++ [df]; calls := calls s |}).
Proof.
  intros Hl Hnd. rewrite (working_copy_run l df) by done.
  assert (text_tokens_of (column_names df) = column_names df) as Htok.
  { unfold text_tokens_of. apply DedupFacts.duplicated_none in Hnd.
    rewrite decide_False by lia. done. }
  unfold renamed. rewrite Htok. unfold column_names. rewrite zip_fst_snd.
  by destruct df.
Qed.

(** * Further properties of the ranker *)






(** X13: on a frame without rows that has the column of a
    higher-is-better metric, [_rank_explainers] raises [ValueError] (the
    [max] of no ranks) and changes nothing. *)
Theorem rank_explainers_no_rows_raises self d score_cols l s m :
  heap s !! l = Some d → index d = [] →
  m ∈ evaluation_measures self → BEST_SORTING_ASCENDING m = Some false →
  SHORT_NAME m ∈ column_names d →
  _rank_explainers self l score_cols s = (Raise ValueError, s).
Proof.
  intros Hl Hidx Hm Hb Hcol.
  destruct (show_cols_of false self (column_names d)) as [|c cs] eqn:Hcs.
  { assert (SHORT_NAME m ∈ show_cols_of false self (column_names d)) as Hin.
    { apply elem_of_show_cols_of. by exists m. }
    rewrite Hcs in Hin. by apply elem_of_nil in Hin. }
  rewrite rank_explainers_unfold.
  rewrite bind_run, (read_run l d) by done. cbv beta iota zeta.
  rewrite Hcs. cbn [for_]. rewrite !bind_run. unfold rank_body at 1.
  rewrite !bind_run, (read_run l d) by done. cbv beta iota.
  assert (column_cells d c = []) as ->.
  { unfold column_cells. by rewrite Hidx. }
  done.
Qed.

Lemma rank_column_order b qs rs i j qi qj ri rj :
  Rank.rank_column b (Z.of_nat (length qs)) qs = Some rs →
  qs !! i = Some qi → qs !! j = Some qj →
  rs !! i = Some ri → rs !! j = Some rj →
  ri < rj ↔ if b then (qi < qj)%Qc else (qj < qi)%Qc.
Proof.
  intros Hrs Hi Hj Hri Hrj.
  assert (qs ≠ []) as Hne by (intros ->; done).
  rewrite RankFacts.rank_column_eq in Hrs by done. injection Hrs as <-.
  apply list_elem_of_lookup_2 in Hi as Hqi.
  apply list_elem_of_lookup_2 in Hj as Hqj.
  apply RankFacts.rankdata_lookup in Hi, Hj.
  assert (∀ x y, x ∈ qs →
            (Rank.dense_rank qs x < Rank.dense_rank qs y ↔ (x < y)%Qc))
    as Hmono.
  { intros x y Hx. split; [|by apply RankFacts.dense_rank_lt].
    intros Hlt. destruct (Qclt_le_dec x y) as [|Hle]; [done|].
    apply (RankFacts.dense_rank_le qs) in Hle. lia. }
  destruct b.
  - rewrite Hi in Hri. rewrite Hj in Hrj. simplify_eq. by apply Hmono.
  - rewrite list_lookup_fmap, Hi in Hri. rewrite list_lookup_fmap, Hj in Hrj.
    simplify_eq/=. rewrite <-(Hmono qj qi) by done. lia.
Qed.

(** X14: on a frame the ranker accepts, for a score column without a
    missing value, the rank column orders the rows as the scores do: one
    row has a strictly smaller rank than another exactly when its score is
    strictly better (smaller when lower is better, larger when higher is
    better). *)
Theorem rank_order_follows_scores self d score_cols l s m col b :
  heap s !! l = Some d → rankable self d score_cols →
  m ∈ evaluation_measures self → (SHORT_NAME m, col) ∈ columns d →
  BEST_SORTING_ASCENDING m = Some b → Forall (λ x, x ≠ NaN) col →
  ∃ l' out qs rs,
    (_rank_explainers self l score_cols s).1 = Ok l'
    ∧ heap (_rank_explainers self l score_cols s).2 !! l' = Some out
    ∧ mapM cell_value col = Some qs
    ∧ (SHORT_NAME m +:+ "_r", Int <$> rs) ∈ columns out
    ∧ ∀ i j qi qj ri rj,
        qs !! i = Some qi → qs !! j = Some qj →
        rs !! i = Some ri → rs !! j = Some rj →
        ri < rj ↔ if b then (qi < qj)%Qc else (qj < qi)%Qc.
Proof.
  intros Hl Hrk Hm Hcol Hb Hnum.
  destruct (rank_column_in_output self d score_cols l s m col b)
    as (l' & out & qs & rs & Hok & Hheap & _ & Hqs & _ & Hrs & _ & Hin);
    try done.
  exists l', out, qs, rs. split_and!; [done..|].
  intros i j qi qj ri rj. by apply rank_column_order.
Qed.

Lemma selected_columns_of_ranked_frame self d score_cols out :
  rankable self d score_cols →
  getitem_list (ranked_frame self d) (output_cols self d score_cols) = Some out →
  index out = index d
  ∧ (∀ c col, (c, col) ∈ columns d → (c, col) ∈ columns out)
  ∧ (∀ c col, (c, col) ∈ columns out →
       (c, col) ∈ columns d
       ∨ ∃ m, m ∈ evaluation_measures self
              ∧ is_Some (BEST_SORTING_ASCENDING m)
              ∧ SHORT_NAME m ∈ column_names d
              ∧ c = SHORT_NAME m +:+ "_r").
Proof.
  intros Hrk Hout.
  apply getitem_list_Some in Hout as [Hidx Hcols]. split_and!; [done| |].
  - intros c col Hin. rewrite Hcols. apply select_columns_elem.
    + assert (c ∈ column_names d) as Hc.
      { apply list_elem_of_fmap. by exists (c, col). }
      unfold output_cols.
      destruct (decide (c ∈ score_cols ++ show_cols self d)) as [Hs|Hs].
      * rewrite app_assoc. apply elem_of_app. by left.
      * rewrite !elem_of_app. right; right. by apply list_elem_of_filter.
    + unfold ranked_frame, add_ranks. cbn [columns]. set_solver.
  - intros c col Hin. rewrite Hcols in Hin.
    apply list_elem_of_bind in Hin as (n & Hin & _).
    apply list_elem_of_filter in Hin as [_ Hin].
    unfold ranked_frame, add_ranks in Hin. cbn [columns] in Hin.
    rewrite !elem_of_app, !list_elem_of_fmap in Hin.
    destruct Hin as [[Hin|(n' & [= -> ->] & Hn')]|(n' & [= -> ->] & Hn')];
      [by left|right..];
      apply elem_of_show_cols_of in Hn' as (m & Hm & <- & Hb & Hc);
      exists m; rewrite Hb; by split_and!.
Qed.





(** * The ranked and the unranked table *)

Lemma unranked_table_rankable self text df r target args :
  wf_frame df → well_named self (text_tokens_of (column_names df)) →
  rankable self (unranked_table self text df r target args)
    (text_tokens_of (column_names df)).
Proof.
  intros Hwf Hnamed.
  pose proof (measures_NoDup self df Hnamed) as Hnames.
  eapply (merged_rankable self df r Hwf Hnamed); [done|done| |].
  - unfold score_columns. rewrite <-list_fmap_compose.
    rewrite <-(score_table_keys self text df r target args Hnames).
    by apply list_fmap_ext.
  - unfold score_columns. apply Forall_fmap, Forall_forall.
    intros kv Hkv. cbn [snd compose]. rewrite length_fmap. split; [done|].
    apply Forall_fmap, Forall_forall. intros label Hlabel. simpl.
    by destruct (score_cell self text df r target args Hnames kv label Hkv Hlabel)
      as [q ->].
Qed.

Lemma evaluate_explainers_ranked_run self text l df r style target args s :
  heap s !! l = Some df → wf_frame df → NoDup (index df) →
  well_named self (text_tokens_of (column_names df)) →
  let merged := unranked_table self text df r target args in
  ∃ out,
    getitem_list (ranked_frame self merged)
      (output_cols self merged (text_tokens_of (column_names df))) = Some out
    ∧ evaluate_explainers self text l r true style target args s
      = (Ok (S (S (length (heap s))),
             if style then Some (StylerOf (S (S (length (heap s))))) else None),
         {| heap := heap s ++ [renamed df; ranked_frame self merged; out];
            calls := calls s
              ++ (label ← index df;
                  row_calls self text df r target args label) |}).
Proof.
  intros Hl Hwf Hlabels Hnamed merged.
  pose proof (unranked_table_rankable self text df r target args Hwf Hnamed)
    as Hrk. fold merged in Hrk.
  set (s2 := {| heap := (heap s ++ [renamed df]) ++ [merged];
                calls := calls s
                  ++ (label ← index df;
                      row_calls self text df r target args label) |}).
  assert (length (heap s2) = S (S (length (heap s)))) as Hlen2.
  { unfold s2. cbn [heap]. rewrite !length_app. simpl. lia. }
  destruct (rank_explainers_run self merged _ Hrk (S (length (heap s))) s2)
    as (out & Hout & Hrun).
  { unfold s2. cbn [heap]. rewrite lookup_app_r by (rewrite length_app; simpl; lia).
    rewrite length_app. simpl.
    by replace (S (length (heap s)) - (length (heap s) + 1))%nat with 0%nat by lia. }
  exists out. split; [done|].
  unfold evaluate_explainers.
  rewrite bind_run, (working_copy_run l df) by done. cbv beta iota zeta.
  cbn [fst snd].
  rewrite bind_run, (evaluate_rows_run _ _ _ df)
    by (by apply lookup_app_l_Some). cbv beta iota.
  rewrite bind_run. erewrite read_run; cycle 1.
  { cbn [heap]. by rewrite list_lookup_middle. }
  cbv beta iota.
  rewrite (concat_score_columns (renamed df)); [|done|]; cycle 1.
  { intros kv label Hkv Hlabel. cbn [renamed index].
    by eapply rows_scores_inner_keys. }
  change {| index := index (renamed df); columns := _ |} with merged.
  rewrite bind_run, lift_run. cbv beta iota.
  rewrite bind_run, alloc_run. cbv beta iota. cbn [heap calls].
  rewrite length_app. cbn [length]. rewrite Nat.add_1_r.
  fold s2. rewrite bind_run, Hrun. cbv beta iota. rewrite Hlen2.
  assert (<[S (length (heap s)) := ranked_frame self merged]> (heap s2) ++ [out]
          = heap s ++ [renamed df; ranked_frame self merged; out]) as ->.
  { unfold s2. cbn [heap].
    rewrite <-(app_assoc (heap s)). cbn [app].
    rewrite insert_app_r_alt by lia.
    replace (S (length (heap s)) - length (heap s))%nat with 1%nat by lia.
    cbn. by rewrite <-app_assoc. }
  set (s3 := {| heap := _; calls := _ |}).
  assert (heap s3 !! S (S (length (heap s))) = Some out) as Hs3.
  { unfold s3. cbn [heap]. rewrite lookup_app_r by lia.
    by replace (S (S (length (heap s))) - length (heap s))%nat with 2%nat by lia. }
  destruct style.
  - rewrite bind_run. unfold _style_result.
    rewrite !bind_run, (read_run _ out) by done. cbv beta iota.
    rewrite ret_run. cbv beta iota. rewrite ret_run. cbv beta iota.
    by rewrite ret_run.
  - rewrite bind_run, ret_run. cbv beta iota. by rewrite ret_run.
Qed.

(** X19: ranking only adds rank columns.  On a well-formed matrix with
    distinct explainer labels and names that do not collide, the table
    returned with [rank_explainer=True] has the rows of the one returned
    with [rank_explainer=False] and every one of its columns with the same
    cells (token and score columns alike); any further column is the [_r]
    column of a metric with a sort direction. *)
Theorem ranking_only_adds_rank_columns self text l df r style target args s :
  heap s !! l = Some df → wf_frame df → NoDup (index df) →
  well_named self (text_tokens_of (column_names df)) →
  ∃ l0 sty0 plain l1 sty1 ranked,
    (evaluate_explainers self text l r false style target args s).1
      = Ok (l0, sty0)
    ∧ heap (evaluate_explainers self text l r false style target args s).2 !! l0
      = Some plain
    ∧ (evaluate_explainers self text l r true style target args s).1
      = Ok (l1, sty1)
    ∧ heap (evaluate_explainers self text l r true style target args s).2 !! l1
      = Some ranked
    ∧ index ranked = index plain
    ∧ (∀ c col, (c, col) ∈ columns plain → (c, col) ∈ columns ranked)
    ∧ (∀ c col, (c, col) ∈ columns ranked →
         (c, col) ∈ columns plain
         ∨ ∃ m, m ∈ evaluation_measures self
                ∧ is_Some (BEST_SORTING_ASCENDING m)
                ∧ c = SHORT_NAME m +:+ "_r").
Proof.
  intros Hl Hwf Hlabels Hnamed.
  destruct (evaluate_explainers_ranked_run self text l df r style target args s
              Hl Hwf Hlabels Hnamed) as (out & Hout & ->).
  rewrite (evaluate_explainers_unranked_run _ _ _ df) by done.
  cbn [fst snd heap].
  pose proof (unranked_table_rankable self text df r target args Hwf Hnamed)
    as Hrk.
  destruct (selected_columns_of_ranked_frame _ _ _ _ Hrk Hout)
    as (Hidx & Hkeep & Hnew).
  eexists _, _, (unranked_table self text df r target args), _, _, out.
  split_and!; [done| |done| |done|done|].
  - rewrite lookup_app_r by lia.
    by replace (S (length (heap s)) - length (heap s))%nat with 1%nat by lia.
  - rewrite lookup_app_r by lia.
    by replace (S (S (length (heap s))) - length (heap s))%nat with 2%nat by lia.
  - intros c col Hin. destruct (Hnew c col Hin) as [?|(m & ? & ? & _ & ?)];
      [by left|right; by exists m].
Qed.

(** * Properties of the styling *)

Lemma show_cols_of_subseteq b self cols : show_cols_of b self cols ⊆ cols.
Proof. intros c (m & _ & _ & _ & Hc)%elem_of_show_cols_of. done. Qed.

(** X17: the operations [_style_result] queues are the gradient over the
    whole table, then up to three gradients each over a non-empty set of
    columns that the table has, then the two passes that colour a cell
    black on white exactly when it is missing. *)
Theorem style_gradients_name_existing_columns self d :
  ∃ mid,
    df_st self d
    = [background_gradient 1 (diverging_palette 240 10 None None None) (-1) 1 None]
      ++ mid
      ++ [applymap color_nan_black; applymap color_nan_white_background]
    ∧ Forall (names_columns_of d) mid
    ∧ ∀ val, (is_Some (color_nan_black val) ↔ val = NaN)
             ∧ (is_Some (color_nan_white_background val) ↔ val = NaN).
Proof.
  unfold df_st.
  set (higher := show_cols_of false self (column_names d)).
  set (lower := show_cols_of true self (column_names d)).
  set (ranking := filter _ _).
  eexists ((if decide (higher ≠ []) then [_] else [])
           ++ (if decide (lower ≠ []) then [_] else [])
           ++ (if decide (ranking ≠ []) then [_] else [])).
  split_and!.
  - cbv zeta. repeat case_decide; reflexivity.
  - rewrite !Forall_app. split_and!; case_decide; repeat constructor; try done.
    + apply show_cols_of_subseteq.
    + apply show_cols_of_subseteq.
    + intros c [Hc _]%list_elem_of_filter. done.
  - intros [q|z|]; unfold color_nan_black, color_nan_white_background; simpl;
      split; split; try done; by intros [??].
Qed.

(** X18: on a frame the ranker accepts, styling the table returned by
    [_rank_explainers] queues the rank gradient with range 1 to the number
    of rows, and the [_r] column of every ranked metric is in its subset;
    when the metric's score column has no missing value, all ranks of that
    [_r] column lie within the range. *)
Theorem rank_gradient_covers_rank_columns self d score_cols l s m col b :
  heap s !! l = Some d → rankable self d score_cols →
  m ∈ evaluation_measures self → (SHORT_NAME m, col) ∈ columns d →
  BEST_SORTING_ASCENDING m = Some b →
  ∃ l' out subset,
    (_rank_explainers self l score_cols s).1 = Ok l'
    ∧ heap (_rank_explainers self l score_cols s).2 !! l' = Some out
    ∧ background_gradient 1 (light_palette "lightblue" true) 1
        (Z.of_nat (length (index out))) (Some subset) ∈ df_st self out
    ∧ SHORT_NAME m +:+ "_r" ∈ subset
    ∧ (Forall (λ x, x ≠ NaN) col →
       ∃ rs,
         (SHORT_NAME m +:+ "_r", Int <$> rs) ∈ columns out
         ∧ Forall (λ r, 1 ≤ r ≤ Z.of_nat (length (index out))) rs).
Proof.
  intros Hl Hrk Hm Hcol Hb.
  destruct (rank_column_placed self d score_cols l s m col b)
    as (l' & out & Hok & Hheap & Hidx & Hrows & Hsc & Hin); try done.
  set (subset :=
    filter (λ v_r, v_r ∈ column_names out)
      ((λ v, v +:+ "_r") <$> show_cols_of false self (column_names out)
                             ++ show_cols_of true self (column_names out))).
  assert (SHORT_NAME m +:+ "_r" ∈ subset) as Hsub.
  { apply list_elem_of_filter. split.
    - apply list_elem_of_fmap. by eexists (_, _).
    - apply list_elem_of_fmap. exists (SHORT_NAME m). split; [done|].
      assert (SHORT_NAME m ∈ show_cols_of b self (column_names out)) as Hshown.
      { apply elem_of_show_cols_of. exists m. split_and!; [done..|].
        apply list_elem_of_fmap. by exists (SHORT_NAME m, col). }
      apply elem_of_app. destruct b; [by right|by left]. }
  exists l', out, subset. split_and!; [done..| |done|].
  - unfold df_st. fold subset. cbv zeta.
    rewrite (decide_True (P := subset ≠ []))
      by (intros Hnil; rewrite Hnil in Hsub; by apply elem_of_nil in Hsub).
    rewrite !elem_of_app. left; right. apply list_elem_of_singleton. done.
  - intros Hnum.
    destruct (ranks_of_spec b d (SHORT_NAME m) col)
      as (qs & rs & Hqs & Hlenqs & Hrs & Hlenrs & Hranks);
      [apply (rk_wf _ _ _ Hrk)|apply (rk_cols _ _ _ Hrk)|done..|].
    destruct (RankFacts.rank_column_dense b qs rs Hrs) as (Hrange & _).
    exists rs. split; [by rewrite <-Hranks|]. by rewrite Hidx, <-Hlenqs.
Qed.

(** * Worked examples *)

Module Witnesses.
Import Examples.

Example init_partitions_by_type lib :
  __init__ lib "clf" tok (Some [m_hi; m_pl; m_lo]) [] = Ok ev.
Proof. reflexivity. Qed.

Example scenario_A :
  (get_true_rational_tokens ev ["The"; "cat"; "sat"] [0; 1; 0] s0).1
  = Ok [0; 1; 0].
Proof. reflexivity. Qed.

Example scenario_B :
  (get_true_rational_tokens ev ["running"] [1] s0).1 = Ok [1; 1].
Proof. reflexivity. Qed.

(** The example of the scipy documentation:
    [rankdata([0, 2, 3, 2], method="dense")] is [[1, 2, 3, 2]]. *)
Example rankdata_dense_documented :
  Rank.rankdata [q 0 1; q 2 1; q 3 1; q 2 1] = [1; 2; 3; 2].
Proof. by vm_compute. Qed.

Example scenario_C :
  Rank.rankdata [q 9 10; q 1 2] = [2; 1]
  ∧ Rank.rank_column false 2 [q 9 10; q 1 2] = Some [1; 2].
Proof. by vm_compute. Qed.

Example scenario_D : Rank.rank_column false 2 [q 1 2; q 1 2] = Some [1; 1].
Proof. by vm_compute. Qed.

Example scenario_E :
  _maybe_dedup_names ["the"; "cat"; "the"] = Some ["the"; "cat"; "the.1"].
Proof. by vm_compute. Qed.

(** The whole call on [matrix]: the returned table is a new object, its
    rank columns are as expected and the caller's object still holds
    [matrix]. *)
Example ranked_table_example :
  let run := evaluate_explainers ev "the cat the" 0%nat (Some [1; 0; 1])
               true true 1 [] s0 in
  ∃ out,
    run.1 = Ok (3%nat, Some (StylerOf 3%nat))
    ∧ heap run.2 !! 3%nat = Some out
    ∧ index out = ["lime"; "shap"; "ig"]
    ∧ dict_get (columns out) "hi_r" = Some [Int 1; Int 2; Int 2]
    ∧ dict_get (columns out) "lo_r" = Some [Int 2; Int 1; Int 1]
    ∧ heap run.2 !! 0%nat = Some matrix.
Proof. eexists. split; [by vm_compute|]. split; by vm_compute. Qed.

(** A repeated explainer label: the score frame has the label once, the
    working copy twice, and [pd.concat] cannot align the two. *)
Example repeated_label_raises :
  (evaluate_explainers ev "the cat" 0%nat None true true 1 [] s4).1
  = Raise InvalidIndexError.
Proof. by vm_compute. Qed.

Example dedup_avoids_taken_names :
  _maybe_dedup_names ["a"; "a"; "a.1"] = Some ["a"; "a.1"; "a.1.1"].
Proof. by vm_compute. Qed.

Lemma scored_rankable : rankable ev scored ["the"].
Proof.
  split.
  - compute_done.
  - compute_done.
  - compute_done.
  - intros m Hm. unfold evaluation_measures in Hm. simpl in Hm.
    repeat (apply elem_of_cons in Hm as [->|Hm]); try compute_done.
    by apply elem_of_nil in Hm.
  - intros Hnil. by vm_compute in Hnil.
  - intros x ->%list_elem_of_singleton. compute_done.
Defined.

Lemma matrix_well_named : well_named ev (text_tokens_of (column_names matrix)).
Proof.
  split.
  - compute_done.
  - intros m Hm. unfold evaluation_measures in Hm. simpl in Hm.
    repeat (apply elem_of_cons in Hm as [->|Hm]); try compute_done.
    by apply elem_of_nil in Hm.
Defined.

Lemma matrix_index_NoDup : NoDup (index matrix).
Proof. compute_done. Defined.

Lemma matrix_wf : wf_frame matrix.
Proof. compute_done. Defined.

Lemma m_hi_measure : m_hi ∈ evaluation_measures ev.
Proof. unfold evaluation_measures. simpl. apply elem_of_cons. by left. Defined.


Lemma hi_column :
  ("hi", [Float (q 9 10); Float (q 1 2); Float (q 1 2)]) ∈ columns scored.
Proof. simpl. apply elem_of_cons. right. apply elem_of_cons. by left. Defined.

Lemma scores_numeric :
  Forall (λ x, x ≠ NaN) [Float (q 9 10); Float (q 1 2); Float (q 1 2)].
Proof. by repeat constructor. Defined.





(** C4 at the example: three words, the middle one split in two. *)
Lemma aligner_replicates_flags_witness :
  length ["The"; "running"; "cat"] = length [0; 1; 0]
  ∧ (get_true_rational_tokens ev ["The"; "running"; "cat"] [0; 1; 0] s0).1
    = Ok [0; 1; 1; 0].
Proof.
  split; [reflexivity|].
  destruct (aligner_replicates_flags ev ["The"; "running"; "cat"] [0; 1; 0] s0)
    as (Hrun & _); [reflexivity|].
  exact Hrun.
Defined.




(** C8 at the example: the caller's matrix after a ranked evaluation. *)
Lemma evaluate_explainers_keeps_input_witness :
  heap s0 !! 0%nat = Some matrix
  ∧ heap (evaluate_explainers ev "the cat the" 0%nat (Some [1; 0; 1]) true true
            1 [] s0).2 !! 0%nat = Some matrix.
Proof.
  split; [reflexivity|].
  destruct (evaluate_explainers_keeps_input ev "the cat the" 0%nat matrix
              (Some [1; 0; 1]) true true 1 [] s0) as [Hkeep _]; [reflexivity|].
  exact Hkeep.
Defined.

(** C9 at the example: the word-level rationale [1; 0; 1] reaches the
    plausibility metric as it is. *)
Lemma rationale_forwarded_unaligned_witness :
  heap s0 !! 0%nat = Some matrix
  ∧ ∃ new,
      calls (evaluate_explainers ev "the cat the" 0%nat (Some [1; 0; 1]) true
               true 1 [] s0).2 = calls s0 ++ new
      ∧ ∀ w, EvEncode w ∉ new.
Proof.
  split; [reflexivity|].
  destruct (rationale_forwarded_unaligned ev "the cat the" 0%nat matrix
              [1; 0; 1] true true 1 [] s0)
    as (new & Hcalls & _ & _ & Hquiet); [reflexivity|].
  exists new. split; [exact Hcalls|exact Hquiet].
Defined.

(** X3 at an example: two sentences aligned one after the other. *)
Lemma aligner_concatenates_witness :
  length ["The"; "running"] = length [0; 1]
  ∧ ∃ a1 a2,
      (get_true_rational_tokens ev ["The"; "running"] [0; 1] s0).1 = Ok a1
      ∧ (get_true_rational_tokens ev ["cat"] [1] s0).1 = Ok a2
      ∧ (get_true_rational_tokens ev (["The"; "running"] ++ ["cat"])
           ([0; 1] ++ [1]) s0).1 = Ok (a1 ++ a2).
Proof.
  split; [reflexivity|].
  apply (aligner_concatenates ev ["The"; "running"] [0; 1] ["cat"] [1] s0).
  reflexivity.
Defined.

(** X4 at an example: every word is a single token. *)
Lemma aligner_identity_on_single_tokens_witness :
  Forall (λ w, length (encode (tokenizer ev) w) = 3%nat) ["The"; "cat"]
  ∧ (get_true_rational_tokens ev ["The"; "cat"] [0; 1; 1] s0).1
    = Ok [0; 1].
Proof.
  assert (Forall (λ w, length (encode (tokenizer ev) w) = 3%nat) ["The"; "cat"])
    as Hone by (repeat constructor).
  split; [exact Hone|].
  exact (aligner_identity_on_single_tokens ev ["The"; "cat"] [0; 1; 1] s0 Hone).
Defined.

(** X5 at an example: a binary rationale gives binary flags. *)
Lemma aligner_keeps_flag_values_witness :
  Forall (λ x, x = 0 ∨ x = 1) [0; 1; 0]
  ∧ ∃ out,
      (get_true_rational_tokens ev ["The"; "running"; "cat"] [0; 1; 0] s0).1
        = Ok out
      ∧ Forall (λ x, x = 0 ∨ x = 1) out.
Proof.
  assert (Forall (λ x, x = 0 ∨ x = 1) [0; 1; 0]) as Hbin.
  { repeat constructor; by (left + right). }
  split; [exact Hbin|].
  exact (aligner_keeps_flag_values (λ x, x = 0 ∨ x = 1) ev
           ["The"; "running"; "cat"] [0; 1; 0] s0 Hbin).
Defined.

(** X6 at the example: the three explainers of [matrix], no ranking. *)
Lemma unranked_table_columns_witness :
  heap s0 !! 0%nat = Some matrix
  ∧ NoDup (index matrix)
  ∧ ∃ l' out,
      (evaluate_explainers ev "the cat the" 0%nat (Some [1; 0; 1]) false true
         1 [] s0).1 = Ok (l', Some (StylerOf l'))
      ∧ heap (evaluate_explainers ev "the cat the" 0%nat (Some [1; 0; 1]) false
                true 1 [] s0).2 !! l' = Some out
      ∧ column_names out = ["the"; "cat"; "the.1"; "hi"; "pl"; "lo"].
Proof.
  split; [reflexivity|]. split; [exact matrix_index_NoDup|].
  destruct (unranked_table_columns ev "the cat the" 0%nat matrix
              (Some [1; 0; 1]) true 1 [] s0)
    as (l' & out & score_cols & Hok & Hheap & _ & Hcols & Hnames & _);
    [reflexivity|exact matrix_index_NoDup|].
  exists l', out. split; [exact Hok|]. split; [exact Hheap|].
  unfold column_names. rewrite Hcols, fmap_app, Hnames. by vm_compute.
Defined.

(** X7 at the example: the "hi" score of the first explainer. *)
Lemma score_cell_holds_last_call_witness :
  heap s0 !! 0%nat = Some matrix
  ∧ NoDup (index matrix)
  ∧ call_plan ev (Some [1; 0; 1]) 1
    = [] ++ (m_hi, None, Some 1) :: [(m_pl, Some [1; 0; 1], None);
                                    (m_lo, None, Some 1)]
  ∧ ∃ l' out col,
      heap (evaluate_explainers ev "the cat the" 0%nat (Some [1; 0; 1]) false
              true 1 [] s0).2 !! l' = Some out
      ∧ ("hi", col) ∈ drop 3 (columns out)
      ∧ col !! 0%nat = Some (Float (q 9 10)).
Proof.
  split; [reflexivity|]. split; [exact matrix_index_NoDup|].
  split; [reflexivity|].
  destruct (score_cell_holds_last_call ev "the cat the" 0%nat matrix
              (Some [1; 0; 1]) true 1 [] s0 [] m_hi None (Some 1)
              [(m_pl, Some [1; 0; 1], None); (m_lo, None, Some 1)])
    as (l' & sty & out & _ & Hheap & Hcell);
    [reflexivity|exact matrix_index_NoDup|reflexivity|compute_done|].
  destruct (Hcell 0%nat "lime") as (col & Hin & Hval); [reflexivity|].
  exists l', out, col. split; [exact Hheap|]. split; [exact Hin|exact Hval].
Defined.


(** X9 at an example: the default metrics with plausibility switched off. *)
Lemma default_metrics_calls_witness :
  heap s0 !! 0%nat = Some matrix
  ∧ ∃ self,
      __init__ lib0 "clf" tok None [("use_plausibility_metrics", false)]
        = Ok self
      ∧ length (calls (evaluate_explainers self "the cat the" 0%nat
                         (Some [1; 0; 1]) true true 1 [] s0).2) = 9%nat.
Proof.
  split; [reflexivity|].
  destruct (default_metrics_calls lib0 "clf" tok
              [("use_plausibility_metrics", false)] "the cat the" 0%nat matrix
              (Some [1; 0; 1]) true true 1 [] s0)
    as (self & Hinit & Hcalls); [reflexivity|].
  exists self. split; [exact Hinit|]. rewrite Hcalls. reflexivity.
Defined.

(** X10 at an example: an evaluator without plausibility metrics. *)
Lemma rationale_ignored_without_plausibility_metrics_witness :
  plausibility_metrics ev_faithful = []
  ∧ evaluate_explainers ev_faithful "the cat the" 0%nat (Some [1; 0; 1]) true
      true 1 [] s0
    = evaluate_explainers ev_faithful "the cat the" 0%nat None true true 1 []
        s0.
Proof.
  split; [reflexivity|].
  apply (rationale_ignored_without_plausibility_metrics ev_faithful).
  reflexivity.
Defined.



(** X13 at an example: a table with a "hi" column and no row. *)
Lemma rank_explainers_no_rows_raises_witness :
  heap s2 !! 0%nat = Some no_rows
  ∧ index no_rows = []
  ∧ m_hi ∈ evaluation_measures ev
  ∧ BEST_SORTING_ASCENDING m_hi = Some false
  ∧ SHORT_NAME m_hi ∈ column_names no_rows
  ∧ _rank_explainers ev 0%nat ["the"] s2 = (Raise ValueError, s2).
Proof.
  assert (SHORT_NAME m_hi ∈ column_names no_rows) as Hcol by compute_done.
  split; [reflexivity|]. split; [reflexivity|]. split; [exact m_hi_measure|].
  split; [reflexivity|]. split; [exact Hcol|].
  exact (rank_explainers_no_rows_raises ev no_rows ["the"] 0%nat s2 m_hi
           eq_refl eq_refl m_hi_measure eq_refl Hcol).
Defined.

(** X14 at the example: "lime" has the largest "hi" score and the smallest
    rank. *)
Lemma rank_order_follows_scores_witness :
  heap s1 !! 0%nat = Some scored
  ∧ rankable ev scored ["the"]
  ∧ Forall (λ x, x ≠ NaN) [Float (q 9 10); Float (q 1 2); Float (q 1 2)]
  ∧ ∃ l' out rs,
      heap (_rank_explainers ev 0%nat ["the"] s1).2 !! l' = Some out
      ∧ ("hi_r", Int <$> rs) ∈ columns out
      ∧ ∀ r0 r1, rs !! 0%nat = Some r0 → rs !! 1%nat = Some r1 → r0 < r1.
Proof.
  split; [reflexivity|]. split; [exact scored_rankable|].
  split; [exact scores_numeric|].
  destruct (rank_order_follows_scores ev scored ["the"] 0%nat s1 m_hi
              [Float (q 9 10); Float (q 1 2); Float (q 1 2)] false)
    as (l' & out & qs & rs & _ & Hheap & Hqs & Hin & Hord);
    [reflexivity|exact scored_rankable|exact m_hi_measure|exact hi_column
    |reflexivity|exact scores_numeric|].
  simpl in Hqs. injection Hqs as <-.
  exists l', out, rs. split; [exact Hheap|]. split; [exact Hin|].
  intros r0 r1 H0 H1.
  apply (Hord 0%nat 1%nat (q 9 10) (q 1 2) r0 r1);
    [reflexivity|reflexivity|exact H0|exact H1|reflexivity].
Defined.



(** X18 at the example: the rank gradient of the ranked table. *)
Lemma rank_gradient_covers_rank_columns_witness :
  heap s1 !! 0%nat = Some scored
  ∧ rankable ev scored ["the"]
  ∧ ∃ l' out subset,
      heap (_rank_explainers ev 0%nat ["the"] s1).2 !! l' = Some out
      ∧ background_gradient 1 (light_palette "lightblue" true) 1
          (Z.of_nat (length (index out))) (Some subset) ∈ df_st ev out
      ∧ "hi_r" ∈ subset
      ∧ ∃ rs,
          ("hi_r", Int <$> rs) ∈ columns out
          ∧ Forall (λ r, 1 ≤ r ≤ Z.of_nat (length (index out))) rs.
Proof.
  split; [reflexivity|]. split; [exact scored_rankable|].
  destruct (rank_gradient_covers_rank_columns ev scored ["the"] 0%nat s1 m_hi
              [Float (q 9 10); Float (q 1 2); Float (q 1 2)] false)
    as (l' & out & subset & _ & Hheap & Hop & Hsub & Hnum);
    [reflexivity|exact scored_rankable|exact m_hi_measure|exact hi_column
    |reflexivity|].
  exists l', out, subset. split; [exact Hheap|]. split; [exact Hop|].
  split; [exact Hsub|exact (Hnum scores_numeric)].
Defined.

(** X19 at the example: the ranked table of [matrix] has the token and
    score columns of the unranked one. *)
Lemma ranking_only_adds_rank_columns_witness :
  heap s0 !! 0%nat = Some matrix
  ∧ wf_frame matrix
  ∧ NoDup (index matrix)
  ∧ well_named ev (text_tokens_of (column_names matrix))
  ∧ ∃ l0 plain l1 ranked,
      heap (evaluate_explainers ev "the cat the" 0%nat (Some [1; 0; 1]) false
              true 1 [] s0).2 !! l0 = Some plain
      ∧ heap (evaluate_explainers ev "the cat the" 0%nat (Some [1; 0; 1]) true
                true 1 [] s0).2 !! l1 = Some ranked
      ∧ index ranked = index plain
      ∧ ∀ c col, (c, col) ∈ columns plain → (c, col) ∈ columns ranked.
Proof.
  split; [reflexivity|]. split; [exact matrix_wf|].
  split; [exact matrix_index_NoDup|]. split; [exact matrix_well_named|].
  destruct (ranking_only_adds_rank_columns ev "the cat the" 0%nat matrix
              (Some [1; 0; 1]) true 1 [] s0)
    as (l0 & sty0 & plain & l1 & sty1 & ranked & _ & H0 & _ & H1 & Hidx
        & Hkeep & _);
    [reflexivity|exact matrix_wf|exact matrix_index_NoDup
    |exact matrix_well_named|].
  exists l0, plain, l1, ranked.
  split; [exact H0|]. split; [exact H1|]. split; [exact Hidx|exact Hkeep].
Defined.

(** X20 at the example: the first two calls for [matrix]. *)
Lemma calls_follow_the_plan_witness :
  heap s0 !! 0%nat = Some matrix
  ∧ take 2 (calls (evaluate_explainers ev "the cat the" 0%nat (Some [1; 0; 1])
                     true true 1 [] s0).2)
    = [EvEvaluate m_hi "the cat the"
         (Vec [Float (q 9 10); Float (q 1 10); Float (q 3 10)]) None (Some 1) [];
       EvEvaluate m_pl "the cat the"
         (Vec [Float (q 9 10); Float (q 1 10); Float (q 3 10)])
         (Some [1; 0; 1]) None []].
Proof.
  split; [reflexivity|].
  rewrite (calls_follow_the_plan ev "the cat the" 0%nat matrix (Some [1; 0; 1])
             true true 1 [] s0 eq_refl).
  reflexivity.
Defined.

Lemma scored_columns_NoDup : NoDup (column_names scored).
Proof. compute_done. Defined.

(** X21 at the example: [scored] has distinct column names. *)
Lemma distinct_columns_are_kept_witness :
  heap s1 !! 0%nat = Some scored
  ∧ NoDup (column_names scored)
  ∧ working_copy 0%nat s1
    = (Ok (1%nat, ["the"; "hi"; "lo"]),
       {| heap := [scored; scored]; calls := [] |}).
Proof.
  split; [reflexivity|]. split; [exact scored_columns_NoDup|].
  exact (distinct_columns_are_kept 0%nat scored s1 eq_refl scored_columns_NoDup).
Defined.

End Witnesses.
